(** * Contact scraper: extraction, normalization and deduplication

    A shallow embedding of the extraction pipeline of the contact scraper
    ([extractor/parser.py], [extractor/normalizer.py], [extractor/utils.py],
    the record loop of [main.py] and the row filter and summary of
    [extractor/writer.py]) together with the properties the specification
    states about it and further properties of the code.

    Python [str] values are lists of 8-bit characters.  The character
    predicates ([isspace], [isdigit], case mapping, regular-expression
    classes) are Python's on code points below 128; a code point from 128
    on is neither whitespace, digit nor letter and is left alone by case
    mapping.  Python dictionaries are finite maps from field names to
    strings. *)

From Stdlib Require Import Ascii String List Bool Arith Lia.
From stdpp Require Import gmap strings list fin_maps.

Set Default Goal Selector "!".
Set Warnings "-clear-no-such-hyp".

(** * Part I: the program *)

(** ** Characters and strings *)

Abbreviation pystr := (list ascii).

(** A string literal as a Python string. *)
Definition str (s : string) : pystr := list_ascii_of_string s.

Module Char.

Definition code (c : ascii) : nat := nat_of_ascii c.

Definition between (lo hi : nat) (c : ascii) : bool :=
  (lo <=? code c) && (code c <=? hi).

(** [str.isspace] on one character: TAB, LF, VT, FF, CR, the four
    separators FS, GS, RS, US, and the space. *)
Definition isspace (c : ascii) : bool := between 9 13 c || between 28 32 c.

(** [str.isdigit] on one character. *)
Definition isdigit (c : ascii) : bool := between 48 57 c.

Definition isupper (c : ascii) : bool := between 65 90 c.
Definition islower (c : ascii) : bool := between 97 122 c.
Definition isalpha (c : ascii) : bool := isupper c || islower c.

(** [\w] of the [re] module: letters, digits and the underscore. *)
Definition isword (c : ascii) : bool :=
  isalpha c || isdigit c || (code c =? 95).

Definition lower (c : ascii) : ascii :=
  if isupper c then ascii_of_nat (code c + 32) else c.

Definition upper (c : ascii) : ascii :=
  if islower c then ascii_of_nat (code c - 32) else c.

Definition eqb (a b : ascii) : bool := Ascii.eqb a b.

End Char.

Module Str.

(** [s.lower()] *)
Definition lower (s : pystr) : pystr := map Char.lower s.

Fixpoint lstrip (s : pystr) : pystr :=
  match s with
  | [] => []
  | c :: s' => if Char.isspace c then lstrip s' else s
  end.

Definition rstrip (s : pystr) : pystr := rev (lstrip (rev s)).

(** [s.strip()] *)
Definition strip (s : pystr) : pystr := rstrip (lstrip s).

(** [s.startswith(p)] *)
Fixpoint startswith (p s : pystr) : bool :=
  match p, s with
  | [], _ => true
  | a :: p', b :: s' => Char.eqb a b && startswith p' s'
  | _ :: _, [] => false
  end.

(** [p in s] *)
Fixpoint contains (p s : pystr) : bool :=
  startswith p s ||
  match s with
  | [] => false
  | _ :: s' => contains p s'
  end.

(** Truth value of a string: non-empty. *)
Definition nonempty (s : pystr) : bool :=
  match s with [] => false | _ :: _ => true end.

Definition eqb (a b : pystr) : bool := bool_decide (a = b).

(** [s.replace(old, new)] for a non-empty [old]: occurrences are replaced
    from left to right and do not overlap; [skip] counts the characters
    of an occurrence that are still to be passed over. *)
Fixpoint replace_from (old new : pystr) (skip : nat) (s : pystr) : pystr :=
  match s with
  | [] => []
  | c :: s' =>
      match skip with
      | S k => replace_from old new k s'
      | O =>
          if startswith old s
          then new ++ replace_from old new (length old - 1) s'
          else c :: replace_from old new 0 s'
      end
  end.

Definition replace (old new s : pystr) : pystr := replace_from old new 0 s.

(** [s.split(sep)[0]] for a one-character separator: the part before the
    first separator, the whole string when there is none. *)
Fixpoint split_head (sep : ascii) (s : pystr) : pystr :=
  match s with
  | [] => []
  | c :: s' => if Char.eqb c sep then [] else c :: split_head sep s'
  end.

(** [s.split('\n')]: the lines of a text, the separators removed. *)
Fixpoint split_on (sep : ascii) (cur : pystr) (s : pystr) : list pystr :=
  match s with
  | [] => [rev cur]
  | c :: s' =>
      if Char.eqb c sep then rev cur :: split_on sep [] s'
      else split_on sep (c :: cur) s'
  end.

Definition split_lines (s : pystr) : list pystr :=
  split_on (ascii_of_nat 10) [] s.

(** [s.split()]: the maximal runs of non-whitespace characters. *)
Fixpoint words_from (cur : pystr) (s : pystr) : list pystr :=
  match s with
  | [] => match cur with [] => [] | _ => [rev cur] end
  | c :: s' =>
      if Char.isspace c
      then match cur with
           | [] => words_from [] s'
           | _ => rev cur :: words_from [] s'
           end
      else words_from (c :: cur) s'
  end.

Definition split (s : pystr) : list pystr := words_from [] s.

(** [sep.join(parts)] *)
Fixpoint join (sep : pystr) (parts : list pystr) : pystr :=
  match parts with
  | [] => []
  | [p] => p
  | p :: rest => p ++ sep ++ join sep rest
  end.

(** [s.title()]: in every maximal run of letters the first letter is
    upper-cased and the others lower-cased; [prev] tells whether the
    previous character was a letter. *)
Fixpoint title_from (prev : bool) (s : pystr) : pystr :=
  match s with
  | [] => []
  | c :: s' =>
      if Char.isalpha c
      then (if prev then Char.lower c else Char.upper c) :: title_from true s'
      else c :: title_from false s'
  end.

Definition title (s : pystr) : pystr := title_from false s.

End Str.

(** ** [extractor/utils.py] *)

(** [canonical_phone(phone)] *)
Definition canonical_phone (phone : pystr) : pystr :=
  match phone with
  | [] => []
  | _ :: _ =>
      let phone := Str.strip phone in
      let has_plus := Str.startswith (str "+") phone in
      let digits := List.filter Char.isdigit phone in
      if has_plus && Str.nonempty digits then str "+" ++ digits else digits
  end.

(** ** Records *)

(** A contact record is a dictionary from field names to strings. *)
Abbreviation record := (gmap string pystr).

(** Truth value of [d.get(k)]: the field is present and non-empty. *)
Definition truthy (v : option pystr) : bool :=
  match v with
  | Some (_ :: _) => true
  | _ => false
  end.

(** [d.get(k) or ''] *)
Definition get_or_empty (d : record) (k : string) : pystr := default [] (d !! k).

(** ** Stage-2 deduplication: [dedupe_records] of [extractor/utils.py] *)

(** The key [(email, phone)] computed in the loop body. *)
Definition dedupe_key (r : record) : pystr * pystr :=
  let email := Str.lower (get_or_empty r "email") in
  let phone := canonical_phone (get_or_empty r "phone") in
  (email, phone).

(** The loop of [dedupe_records], with its two accumulators [seen] and
    [unique_records]. *)
Fixpoint dedupe_loop (seen : gset (pystr * pystr)) (unique_records : list record)
    (records : list record) : list record :=
  match records with
  | [] => unique_records
  | r :: rest =>
      let key := dedupe_key r in
      if decide (key ∉ seen)
      then dedupe_loop ({[key]} ∪ seen) (unique_records ++ [r]) rest
      else dedupe_loop seen unique_records rest
  end.

Definition dedupe_records (records : list record) : list record :=
  dedupe_loop ∅ [] records.

(** ** Stage-1 deduplication: the loop of [extract_contacts] *)

Abbreviation stage1_keyT := (option pystr * option pystr * option pystr)%type.

(** The key of a candidate: each component is [None] when the field is
    absent or empty, otherwise the trimmed (and for name and email
    lower-cased) field. *)
Definition stage1_key (contact : record) : stage1_keyT :=
  (if truthy (contact !! "name")
   then Some (Str.lower (Str.strip (default [] (contact !! "name")))) else None,
   if truthy (contact !! "email")
   then Some (Str.lower (Str.strip (default [] (contact !! "email")))) else None,
   if truthy (contact !! "phone")
   then Some (Str.strip (default [] (contact !! "phone"))) else None).

(** [any(key)] *)
Definition any_key (key : stage1_keyT) : bool :=
  truthy key.1.1 || truthy key.1.2 || truthy key.2.

Fixpoint stage1_loop (source_url : pystr) (seen : gset stage1_keyT)
    (unique_contacts : list record) (all_contacts : list record) : list record :=
  match all_contacts with
  | [] => unique_contacts
  | contact :: rest =>
      let key := stage1_key contact in
      if negb (any_key key) || bool_decide (key ∈ seen)
      then stage1_loop source_url seen unique_contacts rest
      else stage1_loop source_url ({[key]} ∪ seen)
             (unique_contacts ++ [<["source_url" := source_url]> contact]) rest
  end.

Definition stage1_dedup (source_url : pystr) (all_contacts : list record) : list record :=
  stage1_loop source_url ∅ [] all_contacts.

(** ** [extractor/normalizer.py] *)

(** [' '.join(name.split()).title()] *)
Definition normalize_name (name : pystr) : pystr :=
  Str.title (Str.join (str " ") (Str.split name)).

(** [email.strip().lower()] *)
Definition normalize_email (email : pystr) : pystr := Str.lower (Str.strip email).

Definition normalize_phone (phone : pystr) : pystr := canonical_phone phone.

(** [normalize_record(r)]: a new dictionary, filled field by field. *)
Definition normalize_record (r : record) : record :=
  let normalized : record := ∅ in
  let normalized :=
    match r !! "name" with
    | Some v => <["name" := normalize_name v]> normalized
    | None => normalized
    end in
  let normalized :=
    match r !! "email" with
    | Some v => <["email" := normalize_email v]> normalized
    | None => normalized
    end in
  let normalized :=
    match r !! "phone" with
    | Some v => <["phone" := normalize_phone v]> normalized
    | None => normalized
    end in
  let normalized :=
    match r !! "source_url" with
    | Some v => <["source_url" := Str.strip v]> normalized
    | None => normalized
    end in
  normalized.

(** ** The regular expressions of [extractor/parser.py]

    A backtracking matcher for the constructs the three patterns use.
    [run] lists the ways a pattern can match from a position in the order
    in which Python's [re] tries them (a greedy repetition tries one more
    iteration before it tries to stop, an alternation its left branch
    first), so the first element is the match [re] reports. *)

Module Re.

(** The items of a character class [[...]]. *)
Inductive item : Type :=
  | Single (c : ascii)
  | Range (lo hi : ascii)
  | Digit                       (* \d *)
  | Space.                      (* \s *)

Inductive regex : Type :=
  | Eps
  | Lit (c : ascii)
  | Class (items : list item)
  | Boundary                    (* \b *)
  | Seq (r1 r2 : regex)
  | Alt (r1 r2 : regex)
  | Repeat (lo : nat) (hi : option nat) (r : regex)   (* greedy {lo,hi} *)
  | Group (r : regex).          (* the capturing group *)

Definition seq (rs : list regex) : regex := foldr Seq Eps rs.
Definition lits (s : string) : regex := seq (Lit <$> str s).
Definition plus (r : regex) : regex := Repeat 1 None r.
Definition opt (r : regex) : regex := Repeat 0 (Some 1) r.

(** Character comparison, with [re.IGNORECASE] when [ic] is set. *)
Definition lit_matches (ic : bool) (a c : ascii) : bool :=
  if ic then Char.eqb (Char.lower a) (Char.lower c) else Char.eqb a c.

Definition in_range (lo hi c : ascii) : bool :=
  (Char.code lo <=? Char.code c) && (Char.code c <=? Char.code hi).

Definition item_matches (ic : bool) (it : item) (c : ascii) : bool :=
  match it with
  | Single a => lit_matches ic a c
  | Range lo hi =>
      in_range lo hi c
      || (ic && (in_range lo hi (Char.lower c) || in_range lo hi (Char.upper c)))
  | Digit => Char.isdigit c
  | Space => Char.isspace c
  end.

(** A matcher state: the position reached and the span of the group. *)
Record mstate : Type := MState { pos : nat; grp : option (nat * nat) }.

Definition advance (st : mstate) : mstate :=
  {| pos := S (pos st); grp := grp st |}.

Definition word_at (s : pystr) (i : nat) : bool :=
  match s !! i with
  | Some c => Char.isword c
  | None => false
  end.

Definition word_before (s : pystr) (i : nat) : bool :=
  match i with
  | O => false
  | S j => word_at s j
  end.

Section RepeatLoop.
Variable body : mstate → list mstate.

(** Greedy repetition: first the matches with one more iteration (an
    iteration that consumes nothing ends the loop), then, when [lo]
    iterations are done, the match that stops here. *)
Fixpoint repeat_loop (fuel lo : nat) (hi : option nat) (st : mstate)
    : list mstate :=
  match fuel with
  | O => []
  | S fuel' =>
      (match hi with
       | Some O => []
       | _ =>
           flat_map
             (λ st', if pos st <? pos st'
                     then repeat_loop fuel' (pred lo) (pred <$> hi) st'
                     else [])
             (body st)
       end)
      ++ (if lo =? 0 then [st] else [])
  end.
End RepeatLoop.

Fixpoint run (ic : bool) (s : pystr) (r : regex) (st : mstate) : list mstate :=
  match r with
  | Eps => [st]
  | Lit a =>
      match s !! pos st with
      | Some c => if lit_matches ic a c then [advance st] else []
      | None => []
      end
  | Class items =>
      match s !! pos st with
      | Some c => if existsb (λ it, item_matches ic it c) items
                  then [advance st] else []
      | None => []
      end
  | Boundary =>
      if xorb (word_before s (pos st)) (word_at s (pos st)) then [st] else []
  | Seq r1 r2 => flat_map (run ic s r2) (run ic s r1 st)
  | Alt r1 r2 => run ic s r1 st ++ run ic s r2 st
  | Repeat lo hi r' => repeat_loop (run ic s r') (S (length s)) lo hi st
  | Group r' =>
      (λ st', {| pos := pos st'; grp := Some (pos st, pos st') |})
        <$> run ic s r' st
  end.

(** A compiled pattern: the expression and the [re.IGNORECASE] flag. *)
Record pattern : Type := Pattern { p_regex : regex; p_ignorecase : bool }.

(** A match object: where the match starts and the final matcher state. *)
Record match_obj : Type := Match { m_string : pystr; m_start : nat; m_state : mstate }.

Definition slice (s : pystr) (a b : nat) : pystr := take (b - a) (drop a s).

(** [m.group(0)] *)
Definition group0 (m : match_obj) : pystr :=
  slice (m_string m) (m_start m) (pos (m_state m)).

(** [m.group(1)] *)
Definition group1 (m : match_obj) : option pystr :=
  (λ ab : nat * nat, slice (m_string m) ab.1 ab.2) <$> grp (m_state m).

Definition match_at (p : pattern) (s : pystr) (i : nat) : option match_obj :=
  Match s i <$> head (run (p_ignorecase p) s (p_regex p) {| pos := i; grp := None |}).

(** [p.match(s)]: a match that starts at position zero. *)
Definition match_ (p : pattern) (s : pystr) : option match_obj := match_at p s 0.

(** [p.fullmatch(s)]: a match from position zero that ends at the end. *)
Definition fullmatch (p : pattern) (s : pystr) : option match_obj :=
  Match s 0 <$>
    List.find (λ st, pos st =? length s)
      (run (p_ignorecase p) s (p_regex p) {| pos := 0; grp := None |}).

(** [p.search(s)]: the first start position, from the left, that has a
    match; [n] start positions are still to be tried from [i] on. *)
Fixpoint search_from (p : pattern) (s : pystr) (i n : nat) : option match_obj :=
  match n with
  | O => None
  | S n' =>
      match match_at p s i with
      | Some m => Some m
      | None => search_from p s (S i) n'
      end
  end.

Definition search (p : pattern) (s : pystr) : option match_obj :=
  search_from p s 0 (S (length s)).

End Re.

Import Re.

Definition letters_digits : list item :=
  [Range "A" "Z"; Range "a" "z"; Range "0" "9"]%char.

(** [\b[A-Za-z0-9._%+-]+@[A-Za-z0-9.-]+\.[A-Z|a-z]{2,}\b], ignoring case *)
Definition EMAIL_RE : pattern :=
  {| p_regex :=
       seq [ Boundary;
             plus (Class (letters_digits ++
                          [Single "."; Single "_"; Single "%"; Single "+"; Single "-"]%char));
             Lit "@";
             plus (Class (letters_digits ++ [Single "."; Single "-"]%char));
             Lit ".";
             Repeat 2 None (Class [Range "A" "Z"; Single "|"; Range "a" "z"]%char);
             Boundary ];
     p_ignorecase := true |}.

(** [[\s.-]] *)
Definition phone_sep : regex := Class [Space; Single "."; Single "-"]%char.

(** [(?:\+?\d{1,3}[\s.-]?)?(?:\(?\d{2,4}\)?[\s.-]?)?\d{3,4}[\s.-]?\d{3,4}(?:[\s.-]?\d{1,4})?],
    ignoring case *)
Definition PHONE_RE : pattern :=
  {| p_regex :=
       seq [ opt (seq [opt (Lit "+"); Repeat 1 (Some 3) (Class [Digit]); opt phone_sep]);
             opt (seq [opt (Lit "("); Repeat 2 (Some 4) (Class [Digit]); opt (Lit ")");
                       opt phone_sep]);
             Repeat 3 (Some 4) (Class [Digit]);
             opt phone_sep;
             Repeat 3 (Some 4) (Class [Digit]);
             opt (seq [opt phone_sep; Repeat 1 (Some 4) (Class [Digit])]) ];
     p_ignorecase := true |}.

(** [[A-Z][a-z]+] *)
Definition capitalized_word : regex :=
  seq [Class [Range "A" "Z"]%char; plus (Class [Range "a" "z"]%char)].

(** [(?:name|contact|person)[\s:=-]+([A-Z][a-z]+(?:\s+[A-Z][a-z]+)+)],
    ignoring case *)
Definition NAME_PATTERN : pattern :=
  {| p_regex :=
       seq [ Alt (lits "name") (Alt (lits "contact") (lits "person"));
             plus (Class [Space; Single ":"; Single "="; Single "-"]%char);
             Group (seq [capitalized_word;
                         plus (seq [plus (Class [Space]); capitalized_word])]) ];
     p_ignorecase := true |}.

(** ** The parsed document

    [extract_contacts] hands the HTML text to BeautifulSoup and reads the
    parse tree through four queries.  A document is represented by what
    those queries return. *)

(** An [<a>] element: [link.get('href')] and [link.get_text(strip=True)]. *)
Record Anchor : Type := { a_href : option pystr; a_text : pystr }.

(** An element as the semantic extractor sees it: the values of its
    [class] attribute, its [id] and [elem.get_text(strip=True)]. *)
Record Element : Type :=
  { e_class : list pystr; e_id : option pystr; e_text : pystr }.

Record Soup : Type :=
  { (** [soup.find_all('table')]; for each table the rows
        [table.find_all('tr')]; for each row the [get_text(strip=True)] of
        its cells [row.find_all(['td', 'th'])] *)
    soup_tables : list (list (list pystr));
    (** the [<a>] elements, in document order *)
    soup_anchors : list Anchor;
    (** the elements, in document order *)
    soup_elements : list Element;
    (** [soup.get_text()] *)
    soup_text : pystr }.

Definition is_some {A} (o : option A) : bool :=
  match o with Some _ => true | None => false end.

(** ** [_extract_from_tables] *)

Abbreviation columns := (option nat * option nat * option nat)%type.

(** One turn of the loop over [enumerate(headers)]. *)
Definition header_step (acc : columns) (ih : nat * pystr) : columns :=
  let '(name_idx, email_idx, phone_idx) := acc in
  let '(idx, header) := ih in
  if Str.contains (str "name") header || Str.contains (str "contact") header
     || Str.contains (str "person") header
  then (Some idx, email_idx, phone_idx)
  else if Str.contains (str "email") header || Str.contains (str "mail") header
  then (name_idx, Some idx, phone_idx)
  else if Str.contains (str "phone") header || Str.contains (str "tel") header
          || Str.contains (str "mobile") header
  then (name_idx, email_idx, Some idx)
  else acc.

Definition map_columns (headers : list pystr) : columns :=
  foldl header_step (None, None, None) (imap pair headers).

(** Truth value of a column index inside [any([...])]: [None] and [0] are
    false. *)
Definition truthy_idx (i : option nat) : bool :=
  match i with
  | Some (S _) => true
  | _ => false
  end.

(** [start_idx = 1 if any([name_idx, email_idx, phone_idx]) else 0] *)
Definition start_idx (cols : columns) : nat :=
  let '(name_idx, email_idx, phone_idx) := cols in
  if truthy_idx name_idx || truthy_idx email_idx || truthy_idx phone_idx
  then 1 else 0.

(** [if idx is not None and idx < len(cells): contact[field] = cells[idx]] *)
Definition set_from_column (field : string) (idx : option nat)
    (cells : list pystr) (contact : record) : record :=
  match idx with
  | Some i =>
      match cells !! i with
      | Some text => <[field := text]> contact
      | None => contact
      end
  | None => contact
  end.

(** [if not contact.get(field): m = p.search(text); if m: contact[field] = m.group(0)] *)
Definition fallback_field (field : string) (p : pattern) (text : pystr)
    (contact : record) : record :=
  if truthy (contact !! field) then contact
  else match search p text with
       | Some m => <[field := group0 m]> contact
       | None => contact
       end.

Definition fallback_cell (contact : record) (text : pystr) : record :=
  fallback_field "phone" PHONE_RE text (fallback_field "email" EMAIL_RE text contact).

Definition extract_row (cols : columns) (cells : list pystr) : list record :=
  let '(name_idx, email_idx, phone_idx) := cols in
  match cells with
  | [] => []
  | _ :: _ =>
      let contact : record := ∅ in
      let contact := set_from_column "name" name_idx cells contact in
      let contact := set_from_column "email" email_idx cells contact in
      let contact := set_from_column "phone" phone_idx cells contact in
      let contact := foldl fallback_cell contact cells in
      if decide (contact = ∅) then [] else [contact]
  end.

Definition extract_table (rows : list (list pystr)) : list record :=
  match rows with
  | [] => []
  | header_row :: _ =>
      let headers := Str.lower <$> header_row in
      let cols := map_columns headers in
      flat_map (extract_row cols) (drop (start_idx cols) rows)
  end.

Definition extract_from_tables (soup : Soup) : list record :=
  flat_map extract_table (soup_tables soup).

(** ** [_extract_mailto_links] *)

(** [re.compile(r'^mailto:', re.IGNORECASE)]: the anchor [^] makes the
    search a match at position zero. *)
Definition MAILTO_RE : pattern := {| p_regex := lits "mailto:"; p_ignorecase := true |}.

Definition is_mailto (link : Anchor) : bool :=
  match a_href link with
  | Some href => is_some (match_ MAILTO_RE href)
  | None => false
  end.

(** [href.replace('mailto:', '').split('?')[0].strip()] *)
Definition mailto_email (href : pystr) : pystr :=
  Str.strip (Str.split_head "?" (Str.replace (str "mailto:") [] href)).

Definition extract_mailto_link (link : Anchor) : list record :=
  let email := mailto_email (default [] (a_href link)) in
  let name := a_text link in
  if is_some (match_ EMAIL_RE email)
  then
    let contact : record := {[ "email" := email ]} in
    let contact :=
      if Str.nonempty name && negb (Str.eqb name email)
      then <["name" := name]> contact else contact in
    [contact]
  else [].

Definition extract_mailto_links (soup : Soup) : list record :=
  flat_map extract_mailto_link (List.filter is_mailto (soup_anchors soup)).

(** ** [_extract_semantic_elements] *)

Definition semantic_patterns : list string :=
  ["name"; "fullname"; "contact"; "email"; "phone"; "tel"; "mobile"].

(** [re.compile(pattern, re.IGNORECASE)] *)
Definition attr_re (pattern : string) : Re.pattern :=
  {| p_regex := lits pattern; p_ignorecase := true |}.

Definition has_class (pattern : string) (elem : Element) : bool :=
  existsb (λ c, is_some (search (attr_re pattern) c)) (e_class elem).

Definition has_id (pattern : string) (elem : Element) : bool :=
  match e_id elem with
  | Some i => is_some (search (attr_re pattern) i)
  | None => false
  end.

Definition extract_semantic_element (pattern : string) (elem : Element) : list record :=
  let text := e_text elem in
  let p := str pattern in
  let contact : record :=
    if Str.contains (str "email") p || Str.contains (str "mail") p
    then match search EMAIL_RE text with
         | Some m => {[ "email" := group0 m ]}
         | None => ∅
         end
    else if Str.contains (str "phone") p || Str.contains (str "tel") p
            || Str.contains (str "mobile") p
    then match search PHONE_RE text with
         | Some m => {[ "phone" := group0 m ]}
         | None => ∅
         end
    else if Str.contains (str "name") p || Str.contains (str "contact") p
    then (if Str.nonempty text && (2 <? length text)
          then {[ "name" := text ]} else ∅)
    else ∅ in
  if decide (contact = ∅) then [] else [contact].

Definition extract_semantic_elements (soup : Soup) : list record :=
  flat_map
    (λ pattern,
       let elements :=
         List.filter (has_class pattern) (soup_elements soup)
         ++ List.filter (has_id pattern) (soup_elements soup) in
       flat_map (extract_semantic_element pattern) elements)
    semantic_patterns.

(** ** [_extract_candidates_via_text] *)

Definition extract_line (line : pystr) : list record :=
  let line := Str.strip line in
  if negb (Str.nonempty line) then []
  else
    let contact : record := ∅ in
    let contact :=
      match search EMAIL_RE line with
      | Some m => <["email" := group0 m]> contact
      | None => contact
      end in
    let contact :=
      match search PHONE_RE line with
      | Some m => <["phone" := group0 m]> contact
      | None => contact
      end in
    let contact :=
      match search NAME_PATTERN line with
      | Some m => <["name" := Str.strip (default [] (group1 m))]> contact
      | None => contact
      end in
    if decide (contact = ∅) then [] else [contact].

Definition extract_candidates_via_text (soup : Soup) : list record :=
  flat_map extract_line (Str.split_lines (soup_text soup)).

(** ** [_extract_structured], [extract_contacts] and the loop of [main] *)

Definition extract_structured (soup : Soup) : list record :=
  extract_from_tables soup ++ extract_mailto_links soup
  ++ extract_semantic_elements soup.

Definition extract_contacts (soup : Soup) (source_url : pystr) : list record :=
  let structured := extract_structured soup in
  let text_based := extract_candidates_via_text soup in
  let all_contacts := structured ++ text_based in
  stage1_dedup source_url all_contacts.

(** The records [main] collects from the documents it could fetch, each
    given as its parse and its final URL. *)
Definition collect_records (documents : list (Soup * pystr)) : list record :=
  flat_map (λ d, normalize_record <$> extract_contacts d.1 d.2) documents.

(** The list [main] hands to the writer. *)
Definition main_records (documents : list (Soup * pystr)) : list record :=
  dedupe_records (collect_records documents).

(** ** [is_valid_email] of [extractor/utils.py] *)

(** [[a-zA-Z0-9._%+-]+@[a-zA-Z0-9.-]+\.[a-zA-Z]{2,}], the pattern between
    its anchors [^] and [$]; it is compiled without flags. *)
Definition VALID_EMAIL_BODY : regex :=
  seq [ plus (Class [Range "a" "z"; Range "A" "Z"; Range "0" "9";
                     Single "."; Single "_"; Single "%"; Single "+"; Single "-"]%char);
        Lit "@";
        plus (Class [Range "a" "z"; Range "A" "Z"; Range "0" "9";
                     Single "."; Single "-"]%char);
        Lit ".";
        Repeat 2 None (Class [Range "a" "z"; Range "A" "Z"]%char) ].

(** [$]: the end of the string, or the position of a newline that is its
    last character. *)
Definition at_dollar (s : pystr) (i : nat) : bool :=
  (i =? length s)
  || ((S i =? length s) && bool_decide (s !! i = Some (ascii_of_nat 10))).

(** [bool(re.match(pattern, email))] after the test for an empty argument:
    [re.match] tries the pattern at position zero ([^]) and succeeds when
    one of the ways the body matches ends where [$] holds. *)
Definition is_valid_email (email : pystr) : bool :=
  match email with
  | [] => false
  | _ :: _ =>
      existsb (λ st, at_dollar email (pos st))
        (run false email VALID_EMAIL_BODY {| pos := 0; grp := None |})
  end.

(** ** [write_excel] of [extractor/writer.py]

    The data frame the writer builds from the records, up to the two steps
    that do not change which rows and which counts it holds: the sort by
    name, email and phone, and the export of the two sheets. *)

(** A row of the data frame with the columns name, email, phone and
    source_url. *)
Record row : Type :=
  { r_name : pystr; r_email : pystr; r_phone : pystr; r_source_url : pystr }.

(** [pd.DataFrame(records, columns=[...])] and [fillna('')]: a field a
    record lacks is the empty string, a field that is no column is left
    out. *)
Definition to_row (r : record) : row :=
  {| r_name := get_or_empty r "name";
     r_email := get_or_empty r "email";
     r_phone := get_or_empty r "phone";
     r_source_url := get_or_empty r "source_url" |}.

(** [(df['name'] == '') & (df['email'] == '') & (df['phone'] == '')] *)
Definition blank_row (w : row) : bool :=
  negb (Str.nonempty (r_name w)) && negb (Str.nonempty (r_email w))
  && negb (Str.nonempty (r_phone w)).

(** The rows of the contacts sheet. *)
Definition contact_rows (records : list record) : list row :=
  List.filter (λ w, negb (blank_row w)) (to_row <$> records).

(** [df[df[col] != ''][col].nunique()] *)
Definition nunique_nonempty (values : list pystr) : nat :=
  size (list_to_set (List.filter Str.nonempty values) : gset pystr).

(** The values of the summary sheet: total_rows, unique_emails and
    unique_phones. *)
Definition summary (records : list record) : nat * nat * nat :=
  let df := contact_rows records in
  (length df, nunique_nonempty (r_email <$> df), nunique_nonempty (r_phone <$> df)).

(** ** Notions the properties are stated with *)

(** *** Keeping first occurrences *)

Section KeepFirstDef.
Context {A K : Type} `{Countable K} (key : A → K).

(** The elements whose key is neither in [seen] nor carried by an earlier
    element. *)
Fixpoint keep_new (seen : gset K) (l : list A) : list A :=
  match l with
  | [] => []
  | x :: l' =>
      if decide (key x ∈ seen) then keep_new seen l'
      else x :: keep_new ({[key x]} ∪ seen) l'
  end.

(** The specification's words: walk the list in order and keep an
    element exactly when no element before it has its key. *)
Definition first_occurrences (l : list A) : list A :=
  concat (imap (λ i x, if decide (key x ∈ key <$> take i l) then [] else [x]) l).

End KeepFirstDef.

(** A record without a usable email and phone: the email is absent or
    empty and the phone is absent or has an empty canonical form. *)
Definition name_only (r : record) : bool :=
  match r !! "email" with
  | None | Some [] => true
  | Some (_ :: _) => false
  end &&
  match r !! "phone" with
  | None => true
  | Some p => bool_decide (canonical_phone p = [])
  end.

(** Two records of one person, found in this order, and two records that
    carry a name only. *)
Definition ann_first : record :=
  {[ "name" := str "Ann Lee"; "email" := str "ann@y.com"; "phone" := str "5551234" ]}.

Definition ann_second : record :=
  {[ "name" := str "A. Lee"; "email" := str "Ann@Y.com"; "phone" := str "555-1234" ]}.

Definition bob_name_only : record := {[ "name" := str "Bob Singh" ]}.

Definition carol_name_only : record :=
  {[ "name" := str "Carol Diaz"; "phone" := str "n/a" ]}.

(** *** Normalized fields *)

(** The normalizer of each of the four fields. *)
Definition field_normalizer (k : string) : option (pystr → pystr) :=
  if decide (k = "name") then Some normalize_name
  else if decide (k = "email") then Some normalize_email
  else if decide (k = "phone") then Some normalize_phone
  else if decide (k = "source_url") then Some Str.strip
  else None.

Definition record_fields : gset string :=
  {[ "name"; "email"; "phone"; "source_url" ]}.

(** *** The header row of a table *)

(** A first-row cell that names a column: its lower-cased text contains one
    of the keywords. *)
Definition is_header_cell (text : pystr) : bool :=
  let header := Str.lower text in
  Str.contains (str "name") header || Str.contains (str "contact") header
  || Str.contains (str "person") header
  || Str.contains (str "email") header || Str.contains (str "mail") header
  || Str.contains (str "phone") header || Str.contains (str "tel") header
  || Str.contains (str "mobile") header.

Definition any_idx (cols : columns) : bool :=
  truthy_idx cols.1.1 || truthy_idx cols.1.2 || truthy_idx cols.2.

Definition tables_only (tables : list (list (list pystr))) : Soup :=
  {| soup_tables := tables; soup_anchors := []; soup_elements := [];
     soup_text := [] |}.

(** *** Mailto links *)

Definition anchors_only (links : list Anchor) : Soup :=
  {| soup_tables := []; soup_anchors := links; soup_elements := [];
     soup_text := [] |}.

(** *** The name-label matcher *)

(** The name a text line contributes: [NAME_PATTERN.search(line)] and the
    trimmed group 1. *)
Definition captured_name (line : pystr) : option pystr :=
  (λ m, Str.strip (default [] (group1 m))) <$> search NAME_PATTERN line.

(** *** Records with content *)

(** A field that is present and not empty after trimming. *)
Definition nonblank (v : option pystr) : bool :=
  match v with
  | Some s => Str.nonempty (Str.strip s)
  | None => false
  end.

(** A record with at least one content field. *)
Definition has_content (r : record) : bool :=
  nonblank (r !! "name") || nonblank (r !! "email") || nonblank (r !! "phone").

Definition visible (c : ascii) : bool := negb (Char.isspace c).

(** *** A page whose phone has no digit *)

Definition newline : ascii := ascii_of_nat 10.

Definition text_of_lines (lines : list string) : pystr :=
  Str.join [newline] (str <$> lines).

(** A page with one table: a header row (Id, Phone) and the data row
    (7, N/A). *)
Definition phone_without_digits : Soup :=
  {| soup_tables := [[ [str "Id"; str "Phone"]; [str "7"; str "N/A"] ]];
     soup_anchors := [];
     soup_elements := [];
     soup_text := text_of_lines ["Id"; "Phone"; "7"; "N/A"] |}.

(** *** Words *)

(** A word as [str.split()] yields it: non-empty and free of whitespace. *)
Definition good_word (w : pystr) : bool := Str.nonempty w && forallb visible w.

(** *** What a pattern matches

    The substrings a pattern can match, stated without reference to the
    order in which the matcher tries them: [spans ic s r i j] says that [r]
    matches the characters of [s] from position [i] up to position [j]. *)

(** A repetition: [lo] to [hi] spans in a row, each one non-empty. *)
Inductive iter (R : nat → nat → Prop) : nat → option nat → nat → nat → Prop :=
  | iter_stop (hi : option nat) (i : nat) : iter R 0 hi i i
  | iter_step (lo : nat) (hi : option nat) (i k j : nat) :
      hi ≠ Some 0 → R i k → i < k →
      iter R (pred lo) (pred <$> hi) k j → iter R lo hi i j.

Fixpoint spans (ic : bool) (s : pystr) (r : regex) (i j : nat) : Prop :=
  match r with
  | Eps => j = i
  | Lit a => ∃ c, s !! i = Some c ∧ lit_matches ic a c = true ∧ j = S i
  | Class items =>
      ∃ c, s !! i = Some c ∧ existsb (λ it, item_matches ic it c) items = true
           ∧ j = S i
  | Boundary => j = i ∧ xorb (word_before s i) (word_at s i) = true
  | Seq r1 r2 => ∃ k, spans ic s r1 i k ∧ spans ic s r2 k j
  | Alt r1 r2 => spans ic s r1 i j ∨ spans ic s r2 i j
  | Repeat lo hi r' => iter (spans ic s r') lo hi i j
  | Group r' => spans ic s r' i j
  end.

(** The characters a pattern can pass over: those one of its literals or
    character classes accepts. *)
Fixpoint consumes (ic : bool) (r : regex) (c : ascii) : bool :=
  match r with
  | Eps | Boundary => false
  | Lit a => lit_matches ic a c
  | Class items => existsb (λ it, item_matches ic it c) items
  | Seq r1 r2 | Alt r1 r2 => consumes ic r1 c || consumes ic r2 c
  | Repeat _ _ r' | Group r' => consumes ic r' c
  end.

Definition one_of (chars : string) (c : ascii) : bool :=
  existsb (Char.eqb c) (str chars).

(** The characters of a phone candidate. *)
Definition phone_char (c : ascii) : bool :=
  Char.isdigit c || Char.isspace c || one_of ".-+()" c.

(** The characters of the three parts of an email candidate. *)
Definition local_char (c : ascii) : bool :=
  Char.isalpha c || Char.isdigit c || one_of "._%+-" c.

Definition domain_char (c : ascii) : bool :=
  Char.isalpha c || Char.isdigit c || one_of ".-" c.

Definition tld_char (c : ascii) : bool := Char.isalpha c || one_of "|" c.

(** The shape of a captured name: a word of two or more letters followed by
    one or more groups of whitespace and such a word. *)
Definition name_word (w : pystr) : Prop :=
  2 ≤ length w ∧ Forall (λ c, Char.isalpha c = true) w.

Definition blank_run (g : pystr) : Prop :=
  1 ≤ length g ∧ Forall (λ c, Char.isspace c = true) g.

Definition name_shape (name : pystr) : Prop :=
  ∃ (first : pystr) (more : list (pystr * pystr)),
    name = first ++ concat ((λ p, p.1 ++ p.2) <$> more)
    ∧ 1 ≤ length more ∧ name_word first
    ∧ Forall (λ p, blank_run p.1 ∧ name_word p.2) more.

(** The body of the capturing group of [NAME_PATTERN]. *)
Definition name_group : regex :=
  seq [capitalized_word; plus (seq [plus (Class [Space]); capitalized_word])].

(** The field a first-row cell names, by the order of the tests in
    [header_step]. *)
Definition cell_field (header : pystr) : option string :=
  if Str.contains (str "name") header || Str.contains (str "contact") header
     || Str.contains (str "person") header
  then Some "name"
  else if Str.contains (str "email") header || Str.contains (str "mail") header
  then Some "email"
  else if Str.contains (str "phone") header || Str.contains (str "tel") header
          || Str.contains (str "mobile") header
  then Some "phone"
  else None.

(** The column mapped to a field. *)
Definition column (cols : columns) (field : string) : option nat :=
  if decide (field = "name") then cols.1.1
  else if decide (field = "email") then cols.1.2
  else if decide (field = "phone") then cols.2
  else None.

(** The three character classes of [VALID_EMAIL_BODY]. *)
Definition valid_local_items : list item :=
  [Range "a" "z"; Range "A" "Z"; Range "0" "9";
   Single "."; Single "_"; Single "%"; Single "+"; Single "-"]%char.

Definition valid_domain_items : list item :=
  [Range "a" "z"; Range "A" "Z"; Range "0" "9"; Single "."; Single "-"]%char.

Definition valid_tld_items : list item := [Range "a" "z"; Range "A" "Z"]%char.

(** The strings [is_valid_email] is written for: a local part, an at sign,
    a domain, a dot and a last segment of at least two letters. *)
Definition valid_email_shape (s : pystr) : Prop :=
  ∃ loc dom tld : pystr,
    s = loc ++ "@"%char :: dom ++ "."%char :: tld
    ∧ 1 ≤ length loc ∧ Forall (λ c, local_char c = true) loc
    ∧ 1 ≤ length dom ∧ Forall (λ c, domain_char c = true) dom
    ∧ 2 ≤ length tld ∧ Forall (λ c, Char.isalpha c = true) tld.

(** A row without email and phone. *)
Definition no_email_no_phone (w : row) : bool :=
  negb (Str.nonempty (r_email w)) && negb (Str.nonempty (r_phone w)).

(** * Part II: properties *)

Example canonical_phone_plus :
  canonical_phone (str "+1 (555) 123-4567") = str "+15551234567".
Proof. reflexivity. Qed.

Example canonical_phone_dots :
  canonical_phone (str "555.123.4567") = str "5551234567".
Proof. reflexivity. Qed.

Example title_example :
  Str.title (Str.join (str " ") (Str.split (str "  mcDonald   o'neil 3rd "))) = str "Mcdonald O'Neil 3Rd".
Proof. reflexivity. Qed.

(** ** Facts about characters and trimming *)

Section CharFacts.

Lemma isdigit_not_space c : Char.isdigit c = true → Char.isspace c = false.
Proof.
  unfold Char.isdigit, Char.isspace, Char.between.
  generalize (Char.code c); intros n H.
  apply andb_true_iff in H as [H1 H2].
  apply Nat.leb_le in H1, H2.
  apply orb_false_iff; split; apply andb_false_iff.
  - right. apply Nat.leb_gt. lia.
  - right. apply Nat.leb_gt. lia.
Qed.

Lemma isspace_not_digit c : Char.isspace c = true → Char.isdigit c = false.
Proof.
  intros Hs. destruct (Char.isdigit c) eqn:Hd; [|done].
  apply isdigit_not_space in Hd. congruence.
Qed.

Lemma plus_not_digit : Char.isdigit "+"%char = false.
Proof. reflexivity. Qed.

Lemma plus_not_space : Char.isspace "+"%char = false.
Proof. reflexivity. Qed.

Lemma isdigit_not_plus c : Char.isdigit c = true → Char.eqb "+"%char c = false.
Proof.
  intros Hd. unfold Char.eqb. destruct (Ascii.eqb_spec "+"%char c) as [<-|]; [|done].
  by rewrite plus_not_digit in Hd.
Qed.

End CharFacts.

Section StripFacts.

Lemma filter_digit_lstrip s :
  List.filter Char.isdigit (Str.lstrip s) = List.filter Char.isdigit s.
Proof.
  induction s as [|c s IH]; [done|]. simpl.
  destruct (Char.isspace c) eqn:Hs; [|done].
  by rewrite (isspace_not_digit _ Hs).
Qed.

Lemma filter_digit_rstrip s :
  List.filter Char.isdigit (Str.rstrip s) = List.filter Char.isdigit s.
Proof.
  unfold Str.rstrip.
  rewrite List.filter_rev, filter_digit_lstrip, List.filter_rev.
  apply rev_involutive.
Qed.

(** Trimming removes no digit. *)
Lemma filter_digit_strip s :
  List.filter Char.isdigit (Str.strip s) = List.filter Char.isdigit s.
Proof. unfold Str.strip. by rewrite filter_digit_rstrip, filter_digit_lstrip. Qed.

Lemma lstrip_head c s : Char.isspace c = false → Str.lstrip (c :: s) = c :: s.
Proof. intros H. simpl. by rewrite H. Qed.

Lemma rstrip_last s c : Char.isspace c = false → Str.rstrip (s ++ [c]) = s ++ [c].
Proof.
  intros H. unfold Str.rstrip. rewrite rev_app_distr. simpl.
  rewrite H. simpl. by rewrite rev_involutive.
Qed.

(** A string without whitespace is its own trimming. *)
Lemma strip_no_space s :
  Forall (λ c, Char.isspace c = false) s → Str.strip s = s.
Proof.
  intros Hs. unfold Str.strip.
  destruct s as [|c s]; [done|].
  rewrite lstrip_head by (by inversion Hs).
  destruct (exists_last (l := c :: s)) as (s' & d & E); [done|].
  rewrite E in Hs |- *.
  apply rstrip_last.
  apply Forall_app in Hs as [_ Hd]. by inversion Hd.
Qed.

Lemma filter_digit_all s :
  Forall (λ c, Char.isdigit c = true) (List.filter Char.isdigit s).
Proof.
  apply List.Forall_forall. intros c Hc. by apply List.filter_In in Hc as [_ ?].
Qed.

Lemma filter_digit_id s :
  Forall (λ c, Char.isdigit c = true) s → List.filter Char.isdigit s = s.
Proof.
  induction 1 as [|c s Hc _ IH]; [done|]. simpl. by rewrite Hc, IH.
Qed.

Lemma digits_no_space s :
  Forall (λ c, Char.isdigit c = true) s → Forall (λ c, Char.isspace c = false) s.
Proof.
  intros H. eapply Forall_impl; [exact H|].
  intros c. apply isdigit_not_space.
Qed.

End StripFacts.

(** ** Canonical phone numbers *)

Section CanonicalPhone.

(** The digits [canonical_phone] extracts are those of its argument. *)
Lemma canonical_phone_unfold x :
  canonical_phone x =
    if Str.startswith (str "+") (Str.strip x) && Str.nonempty (List.filter Char.isdigit x)
    then str "+" ++ List.filter Char.isdigit x
    else List.filter Char.isdigit x.
Proof.
  destruct x as [|c x]; [done|].
  unfold canonical_phone. by rewrite filter_digit_strip.
Qed.

Lemma canonical_phone_digits d :
  Forall (λ c, Char.isdigit c = true) d → canonical_phone d = d.
Proof.
  intros Hd. rewrite canonical_phone_unfold.
  rewrite (strip_no_space d) by (by apply digits_no_space).
  rewrite (filter_digit_id d Hd).
  destruct d as [|c d]; [done|].
  inversion Hd as [|? ? Hc _]; subst.
  change (Str.startswith (str "+") (c :: d)) with (Char.eqb "+"%char c && true).
  by rewrite (isdigit_not_plus c Hc).
Qed.

Lemma canonical_phone_plus_digits d :
  d ≠ [] → Forall (λ c, Char.isdigit c = true) d →
  canonical_phone (str "+" ++ d) = str "+" ++ d.
Proof.
  intros Hne Hd. rewrite canonical_phone_unfold.
  rewrite strip_no_space.
  - change (str "+" ++ d) with ("+"%char :: d). simpl.
    rewrite (filter_digit_id d Hd). by destruct d.
  - constructor; [done|]. by apply digits_no_space.
Qed.

End CanonicalPhone.

(** C5: [canonical_phone] trims its argument, keeps its digit characters in
    their order, puts a ['+'] in front exactly when the trimmed argument
    starts with ['+'] and there is a digit, and yields the empty string for
    an empty or digit-free argument; the two phone numbers of scenario 6
    canonicalize as the specification says. *)
Theorem canonical_phone_spec :
  (∀ x : pystr,
     let digits := List.filter Char.isdigit x in
     canonical_phone x =
       (if Str.startswith (str "+") (Str.strip x) && Str.nonempty digits
        then str "+" ++ digits else digits)
     ∧ (x = [] ∨ digits = [] → canonical_phone x = []))
  ∧ canonical_phone (str "+1 (555) 123-4567") = str "+15551234567"
  ∧ canonical_phone (str "555.123.4567") = str "5551234567".
Proof.
  split; [|split; reflexivity].
  intros x digits. split; [apply canonical_phone_unfold|].
  intros [->|Hd]; [done|].
  rewrite canonical_phone_unfold. fold digits. rewrite Hd.
  by rewrite andb_false_r.
Qed.

Lemma canonical_phone_spec_witness :
  canonical_phone (str "ext. n/a") = [] ∧ canonical_phone (str "+ ") = [].
Proof.
  split.
  - apply (proj1 canonical_phone_spec (str "ext. n/a")). right. reflexivity.
  - apply (proj1 canonical_phone_spec (str "+ ")). right. reflexivity.
Defined.

(** C8: canonicalizing a canonical phone number changes nothing. *)
Theorem canonical_phone_idempotent (x : pystr) :
  canonical_phone (canonical_phone x) = canonical_phone x.
Proof.
  rewrite (canonical_phone_unfold x).
  pose proof (filter_digit_all x) as Hd.
  destruct (Str.startswith (str "+") (Str.strip x) &&
            Str.nonempty (List.filter Char.isdigit x)) eqn:E.
  - apply canonical_phone_plus_digits; [|done].
    apply andb_true_iff in E as [_ E]. by destruct (List.filter Char.isdigit x).
  - by apply canonical_phone_digits.
Qed.

Section KeepFirst.
Context {A K : Type} `{Countable K} (key : A → K).

Lemma keep_new_imap seen l :
  keep_new key seen l =
  concat (imap (λ i x, if decide (key x ∈ seen ∨ key x ∈ key <$> take i l)
                       then [] else [x]) l).
Proof.
  revert seen. induction l as [|x l IH]; intros seen; [done|].
  cbn [keep_new imap concat].
  assert (Htail : ∀ s' : gset K,
    (∀ k, k ∈ s' ↔ k ∈ seen ∨ k = key x) →
    keep_new key s' l =
    concat (imap ((λ i y, if decide (key y ∈ seen ∨ key y ∈ key <$> take i (x :: l))
                          then [] else [y]) ∘ S) l)).
  { intros s' Hs'. rewrite IH. f_equal. apply imap_ext. intros i y _. simpl.
    repeat case_decide; try done.
    - exfalso. rewrite Hs', elem_of_cons in *. tauto.
    - exfalso. rewrite Hs', elem_of_cons in *. tauto. }
  destruct (decide (key x ∈ seen)) as [Hin|Hnin].
  - rewrite decide_True by (by left). simpl.
    apply Htail. intros k. split; [tauto|]. intros [?| ->]; done.
  - rewrite decide_False by (simpl; rewrite elem_of_nil; tauto). simpl. f_equal.
    apply Htail. intros k. set_solver.
Qed.

Lemma keep_new_first_occurrences l : keep_new key ∅ l = first_occurrences key l.
Proof.
  rewrite keep_new_imap. unfold first_occurrences. f_equal.
  apply imap_ext. intros i x _. simpl.
  repeat case_decide; try done; set_solver.
Qed.

Lemma elem_of_keep_new seen l x :
  x ∈ keep_new key seen l ↔
  ∃ i, l !! i = Some x ∧ (key x ∉ seen) ∧
       (∀ j y, j < i → l !! j = Some y → key y ≠ key x).
Proof.
  revert seen. induction l as [|a l IH]; intros seen; simpl.
  { split; [by intros ?%elem_of_nil|]. by intros (i & ? & _). }
  destruct (decide (key a ∈ seen)) as [Hin|Hnin].
  - rewrite IH. split.
    + intros (i & Hi & Hx & Hfirst). exists (S i). split_and!; [done..|].
      intros [|j] y Hj Hy; simplify_eq/=; [congruence|].
      eapply Hfirst; [|done]. lia.
    + intros ([|i] & Hi & Hx & Hfirst); simplify_eq/=; [done|].
      exists i. split_and!; [done..|].
      intros j y Hj Hy. apply (Hfirst (S j) y); [lia|done].
  - rewrite elem_of_cons, IH. split.
    + intros [->|(i & Hi & Hx & Hfirst)].
      * exists 0. split_and!; [done..|]. intros; lia.
      * exists (S i). split_and!; [done|set_solver|].
        intros [|j] y Hj Hy; simplify_eq/=; [set_solver|].
        eapply Hfirst; [|done]. lia.
    + intros ([|i] & Hi & Hx & Hfirst); simplify_eq/=; [by left|].
      right. exists i. split_and!; [done| |].
      * assert (key a ≠ key x) by (apply (Hfirst 0 a); [lia|done]). set_solver.
      * intros j y Hj Hy. apply (Hfirst (S j) y); [lia|done].
Qed.

Lemma keep_new_sublist seen l : keep_new key seen l `sublist_of` l.
Proof.
  revert seen. induction l as [|a l IH]; intros seen; simpl; [done|].
  case_decide; [by apply sublist_cons|by apply sublist_skip].
Qed.

Lemma keep_new_fresh seen l x : x ∈ keep_new key seen l → key x ∉ seen.
Proof. rewrite elem_of_keep_new. naive_solver. Qed.

Lemma keep_new_NoDup seen l : NoDup (key <$> keep_new key seen l).
Proof.
  revert seen. induction l as [|a l IH]; intros seen; simpl; [constructor|].
  case_decide; [done|]. rewrite fmap_cons. constructor; [|done].
  intros (y & Hy & Hin)%list_elem_of_fmap.
  apply keep_new_fresh in Hin. set_solver.
Qed.

(** What was kept once is kept again. *)
Lemma keep_new_idemp seen l : keep_new key seen (keep_new key seen l) = keep_new key seen l.
Proof.
  revert seen. induction l as [|a l IH]; intros seen; simpl; [done|].
  case_decide as Hin; [done|]. simpl. rewrite decide_False by done.
  by rewrite IH.
Qed.

Lemma keep_new_app seen l1 l2 :
  keep_new key seen (l1 ++ l2) =
  keep_new key seen l1 ++ keep_new key (seen ∪ list_to_set (key <$> l1)) l2.
Proof.
  revert seen. induction l1 as [|a l1 IH]; intros seen; simpl.
  { f_equal. set_solver. }
  case_decide as Hin.
  - rewrite IH. do 2 f_equal. set_solver.
  - simpl. rewrite IH. do 3 f_equal. set_solver.
Qed.

(** An element whose key was met before leaves no trace. *)
Lemma keep_new_drop_later seen l1 x l2 :
  key x ∈ seen ∨ key x ∈ key <$> l1 →
  keep_new key seen (l1 ++ x :: l2) = keep_new key seen (l1 ++ l2).
Proof.
  intros Hx. rewrite !keep_new_app. f_equal. simpl.
  rewrite decide_True; [done|]. set_solver.
Qed.

End KeepFirst.

Section AtMostOne.
Context {A K : Type} (f : A → K) (P : A → bool) (k : K).

Lemma filter_nil_by_key (l : list A) :
  k ∉ f <$> l → (∀ x, P x = true → f x = k) → List.filter P l = [].
Proof.
  intros Hk HP. induction l as [|a l IH]; [done|]. simpl.
  rewrite fmap_cons, not_elem_of_cons in Hk. destruct Hk as [Ha Hl].
  destruct (P a) eqn:E; [|by apply IH].
  apply HP in E. congruence.
Qed.

(** Among elements with pairwise different keys at most one can satisfy
    a predicate that fixes the key. *)
Lemma filter_at_most_one (l : list A) :
  NoDup (f <$> l) → (∀ x, P x = true → f x = k) →
  length (List.filter P l) ≤ 1.
Proof.
  intros Hnd HP. induction l as [|a l IH]; simpl; [lia|].
  rewrite fmap_cons in Hnd. apply NoDup_cons in Hnd as [Ha Hl].
  destruct (P a) eqn:E; [|by apply IH].
  rewrite filter_nil_by_key; [simpl; lia| |done].
  by rewrite <-(HP a E).
Qed.

End AtMostOne.

(** ** The two loops keep first occurrences *)

Section Loops.

Lemma dedupe_loop_keep_new seen acc rs :
  dedupe_loop seen acc rs = acc ++ keep_new dedupe_key seen rs.
Proof.
  revert seen acc. induction rs as [|r rs IH]; intros seen acc; simpl.
  { by rewrite app_nil_r. }
  destruct (decide (dedupe_key r ∈ seen)) as [Hin|Hnin].
  - rewrite decide_False by (intros Hn; by apply Hn). apply IH.
  - rewrite decide_True by done. rewrite IH. by rewrite <-app_assoc.
Qed.

Lemma dedupe_records_keep_new rs :
  dedupe_records rs = keep_new dedupe_key ∅ rs.
Proof. unfold dedupe_records. by rewrite dedupe_loop_keep_new. Qed.

Lemma stage1_loop_keep_new url seen acc cs :
  stage1_loop url seen acc cs =
  acc ++ ((λ c : record, <["source_url" := url]> c) <$>
          keep_new stage1_key seen
            (List.filter (λ c, any_key (stage1_key c)) cs)).
Proof.
  revert seen acc. induction cs as [|c cs IH]; intros seen acc; simpl.
  { by rewrite app_nil_r. }
  destruct (any_key (stage1_key c)) eqn:Hany; simpl; [|apply IH].
  destruct (decide (stage1_key c ∈ seen)) as [Hin|Hnin].
  - rewrite bool_decide_eq_true_2 by done. apply IH.
  - rewrite bool_decide_eq_false_2 by done. rewrite IH.
    by rewrite fmap_cons, <-app_assoc.
Qed.

Lemma dedupe_records_NoDup rs : NoDup (dedupe_key <$> dedupe_records rs).
Proof. rewrite dedupe_records_keep_new. apply keep_new_NoDup. Qed.

Lemma elem_of_dedupe_records rs x :
  x ∈ dedupe_records rs ↔
  ∃ i, rs !! i = Some x ∧
       (∀ j y, j < i → rs !! j = Some y → dedupe_key y ≠ dedupe_key x).
Proof.
  rewrite dedupe_records_keep_new, elem_of_keep_new.
  split; intros (i & ? & ?); exists i; [tauto|].
  split_and!; [tauto|set_solver|tauto].
Qed.

End Loops.

(** C6: both deduplications keep exactly the first occurrence of each key,
    in processing order (Stage 1 among the candidates with a non-blank key,
    each stamped with the source URL); hence for every input record the one
    output record of Stage 2 with its key is the earliest input record with
    that key, whose other fields (such as the name) are kept. *)
Theorem dedup_keeps_first_occurrence :
  (∀ rs : list record,
     dedupe_records rs = first_occurrences dedupe_key rs
     ∧ dedupe_records rs `sublist_of` rs)
  ∧ (∀ (url : pystr) (cs : list record),
       stage1_dedup url cs =
       (λ c : record, <["source_url" := url]> c) <$>
         first_occurrences stage1_key
           (List.filter (λ c, any_key (stage1_key c)) cs))
  ∧ (∀ (rs : list record) (i : nat) (r' : record),
       rs !! i = Some r' →
       ∃ (j : nat) (r : record),
         j ≤ i ∧ rs !! j = Some r ∧ dedupe_key r = dedupe_key r'
         ∧ (∀ j' r'', j' < j → rs !! j' = Some r'' → dedupe_key r'' ≠ dedupe_key r')
         ∧ (∀ x, x ∈ dedupe_records rs ∧ dedupe_key x = dedupe_key r' ↔ x = r)).
Proof.
  split_and!.
  - intros rs. rewrite dedupe_records_keep_new. split.
    + apply keep_new_first_occurrences.
    + apply keep_new_sublist.
  - intros url cs. unfold stage1_dedup.
    by rewrite stage1_loop_keep_new, keep_new_first_occurrences.
  - intros rs i r' Hi.
    destruct (list_find (λ y, dedupe_key y = dedupe_key r') rs) as [[j r]|] eqn:Hfind.
    2:{ apply list_find_None in Hfind.
        rewrite Forall_forall in Hfind. exfalso.
        apply (Hfind r'); [|done]. by eapply list_elem_of_lookup_2. }
    apply list_find_Some in Hfind as (Hj & Hkey & Hfirst).
    assert (Hji : j ≤ i).
    { destruct (decide (j ≤ i)) as [|Hgt]; [done|]. exfalso.
      apply (Hfirst i r'); [done|lia|done]. }
    assert (Hfirst' : ∀ j' r'', j' < j → rs !! j' = Some r'' →
                               dedupe_key r'' ≠ dedupe_key r').
    { intros j' r'' ? ?. by apply (Hfirst j' r''). }
    exists j, r. split_and!; [done..|].
    intros x. split.
    + intros [(i0 & Hi0 & Hx0)%elem_of_dedupe_records Hxk].
      destruct (Nat.lt_trichotomy i0 j) as [Hlt|[->|Hlt]].
      * exfalso. by apply (Hfirst i0 x).
      * congruence.
      * exfalso. apply (Hx0 j r); [done..|congruence].
    + intros ->. split; [|done].
      apply elem_of_dedupe_records. exists j. split; [done|].
      intros j' y Hlt Hy. rewrite Hkey. by apply (Hfirst' j' y).
Qed.

Lemma dedup_keeps_first_occurrence_witness :
  ∃ (j : nat) (r : record),
    j ≤ 1 ∧ [ann_first; ann_second] !! j = Some r
    ∧ dedupe_key r = dedupe_key ann_second
    ∧ (∀ j' r'', j' < j → [ann_first; ann_second] !! j' = Some r'' →
                 dedupe_key r'' ≠ dedupe_key ann_second)
    ∧ (∀ x, x ∈ dedupe_records [ann_first; ann_second]
            ∧ dedupe_key x = dedupe_key ann_second ↔ x = r).
Proof.
  apply (proj2 (proj2 dedup_keeps_first_occurrence)
           [ann_first; ann_second] 1 ann_second).
  reflexivity.
Defined.

(** Scenario 4: of two records with the same email up to case and the same
    canonical phone the first one is kept, with its name. *)
Example dedupe_same_person :
  dedupe_records [ann_first; ann_second] = [ann_first].
Proof. vm_compute. reflexivity. Qed.

(** C7: deduplicating an already deduplicated list changes nothing. *)
Theorem dedupe_records_idempotent (rs : list record) :
  dedupe_records (dedupe_records rs) = dedupe_records rs.
Proof. rewrite !dedupe_records_keep_new. apply keep_new_idemp. Qed.

(** C10: every record without a usable email and phone has the Stage-2 key
    [("", "")], so at most one of them survives [dedupe_records], and a
    later one is dropped whatever its name is. *)
Theorem name_only_records_collapse :
  (∀ r : record, name_only r = true → dedupe_key r = ([], []))
  ∧ (∀ rs : list record, length (List.filter name_only (dedupe_records rs)) ≤ 1)
  ∧ (∀ (l1 : list record) (r : record) (l2 : list record) (r' : record)
       (l3 : list record),
       name_only r = true → name_only r' = true →
       dedupe_records (l1 ++ r :: l2 ++ r' :: l3) =
       dedupe_records (l1 ++ r :: l2 ++ l3)).
Proof.
  assert (Hkey : ∀ r : record, name_only r = true → dedupe_key r = ([], [])).
  { intros r Hr. unfold name_only in Hr. apply andb_true_iff in Hr as [He Hp].
    unfold dedupe_key, get_or_empty.
    destruct (r !! "email") as [[|? ?]|]; try done;
      destruct (r !! "phone") as [p|]; simpl in *; try done;
      apply bool_decide_eq_true in Hp; by rewrite Hp. }
  split_and!; [done| |].
  - intros rs. apply (filter_at_most_one dedupe_key name_only ([], [])); [|done].
    apply dedupe_records_NoDup.
  - intros l1 r l2 r' l3 Hr Hr'. rewrite !dedupe_records_keep_new.
    change (l1 ++ r :: l2 ++ r' :: l3) with (l1 ++ (r :: l2) ++ r' :: l3).
    change (l1 ++ r :: l2 ++ l3) with (l1 ++ (r :: l2) ++ l3).
    rewrite !(assoc_L (++) l1). apply keep_new_drop_later. right.
    rewrite (Hkey r' Hr'), <-(Hkey r Hr). set_solver.
Qed.

Lemma name_only_records_collapse_witness :
  dedupe_key carol_name_only = ([], [])
  ∧ dedupe_records ([ann_first] ++ bob_name_only :: [ann_second] ++ carol_name_only :: [])
    = dedupe_records ([ann_first] ++ bob_name_only :: [ann_second] ++ []).
Proof.
  split.
  - apply (proj1 name_only_records_collapse carol_name_only). vm_compute. reflexivity.
  - apply (proj2 (proj2 name_only_records_collapse)
             [ann_first] bob_name_only [ann_second] carol_name_only []);
      vm_compute; reflexivity.
Defined.

Lemma normalize_record_lookup (r : record) (k : string) :
  normalize_record r !! k =
  match field_normalizer k with
  | Some f => f <$> r !! k
  | None => None
  end.
Proof.
  unfold normalize_record, field_normalizer.
  destruct (r !! "name") eqn:E1, (r !! "email") eqn:E2,
           (r !! "phone") eqn:E3, (r !! "source_url") eqn:E4;
    repeat case_decide; simplify_map_eq; done.
Qed.

(** C9: the output of [normalize_record] has exactly those of the keys
    name, email, phone, source_url that the input has, each with the
    normalized value of the input field; a key the input lacks is absent
    from the output. *)
Theorem normalize_record_fields (r : record) :
  dom (normalize_record r) = dom r ∩ record_fields
  ∧ normalize_record r !! "name" = normalize_name <$> r !! "name"
  ∧ normalize_record r !! "email" = normalize_email <$> r !! "email"
  ∧ normalize_record r !! "phone" = normalize_phone <$> r !! "phone"
  ∧ normalize_record r !! "source_url" = Str.strip <$> r !! "source_url"
  ∧ (∀ k : string,
       normalize_record r !! k =
       (if decide (k ∈ record_fields)
        then field_normalizer k ≫= λ f, f <$> r !! k
        else None)).
Proof.
  split_and!; try (rewrite normalize_record_lookup; reflexivity).
  - apply set_eq. intros k.
    rewrite elem_of_intersection, !elem_of_dom, normalize_record_lookup.
    unfold record_fields, field_normalizer.
    repeat case_decide; subst; rewrite ?fmap_is_Some;
      try (split; [intros ?; split; [done|set_solver]|tauto]).
    split; [by intros [? ?]|]. intros [_ Hk]. set_solver.
  - intros k. rewrite normalize_record_lookup.
    unfold record_fields, field_normalizer.
    repeat case_decide; subst; try done; set_solver.
Qed.

Example email_search :
  group0 <$> search EMAIL_RE (str "Email: bob.singh@example.org, thanks")
  = Some (str "bob.singh@example.org").
Proof. vm_compute. reflexivity. Qed.

Example phone_search :
  group0 <$> search PHONE_RE (str "call +1 (555) 123-4567 now")
  = Some (str "+1 (555) 123-4567").
Proof. vm_compute. reflexivity. Qed.

Example phone_search_short :
  group0 <$> search PHONE_RE (str "555-1234") = Some (str "555-1234").
Proof. vm_compute. reflexivity. Qed.

Example name_search :
  (search NAME_PATTERN (str "Contact: Bob Singh") ≫= group1) = Some (str "Bob Singh").
Proof. vm_compute. reflexivity. Qed.

Example name_search_none :
  search NAME_PATTERN (str "Email: bob.singh@example.org") = None.
Proof. vm_compute. reflexivity. Qed.

Section HeaderRow.

Lemma start_idx_any cols : start_idx cols = if any_idx cols then 1 else 0.
Proof. by destruct cols as [[? ?] ?]. Qed.

(** A keyword cell in a column other than the first makes the list of
    column indices true, and nothing else does. *)
Lemma header_step_any acc idx text :
  0 < idx →
  any_idx (header_step acc (idx, Str.lower text)) = any_idx acc || is_header_cell text.
Proof.
  intros Hidx. destruct acc as [[n e] p], idx as [|idx]; [lia|].
  unfold header_step, is_header_cell, any_idx.
  generalize (Str.lower text); intros h.
  destruct (Str.contains (str "name") h), (Str.contains (str "contact") h),
    (Str.contains (str "person") h), (Str.contains (str "email") h),
    (Str.contains (str "mail") h), (Str.contains (str "phone") h),
    (Str.contains (str "tel") h), (Str.contains (str "mobile") h);
    simpl; rewrite ?orb_true_r, ?orb_false_r; reflexivity.
Qed.

Lemma fold_header_any (f : nat → nat) (row : list pystr) (acc : columns) :
  (∀ i, 0 < f i) →
  any_idx (foldl header_step acc (imap (λ i h, (f i, h)) (Str.lower <$> row)))
  = any_idx acc || existsb is_header_cell row.
Proof.
  revert f acc. induction row as [|text row IH]; intros f acc Hf; simpl.
  { by rewrite orb_false_r. }
  rewrite (IH (f ∘ S)) by (intros i; apply Hf).
  rewrite header_step_any by apply Hf. by rewrite orb_assoc.
Qed.

Lemma header_step_first (h : pystr) :
  any_idx (header_step (None, None, None) (0, h)) = false.
Proof.
  unfold header_step.
  repeat match goal with |- context [if ?b then _ else _] => destruct b end;
    reflexivity.
Qed.

(** The first row is skipped exactly when a cell after the first names a
    column. *)
Lemma start_idx_header_row (first : pystr) (others : list pystr) :
  start_idx (map_columns (Str.lower <$> first :: others))
  = if existsb is_header_cell others then 1 else 0.
Proof.
  rewrite start_idx_any. unfold map_columns. rewrite fmap_cons.
  change (imap pair (Str.lower first :: (Str.lower <$> others)))
    with ((0, Str.lower first) :: imap (λ i h, (S i, h)) (Str.lower <$> others)).
  cbn [foldl].
  rewrite (fold_header_any S) by lia.
  by rewrite header_step_first.
Qed.

End HeaderRow.

(** C1: the first row of a table is skipped exactly when a cell other than
    its first one contains a keyword; a header row whose only keyword cell
    is the first one is not skipped but read as a data row, as on the table
    with rows (Name, City) and (Alice Johnson, Paris). *)
Theorem table_header_detection :
  (∀ (first : pystr) (others : list pystr) (rest : list (list pystr)),
     extract_table ((first :: others) :: rest) =
     flat_map (extract_row (map_columns (Str.lower <$> first :: others)))
       (if existsb is_header_cell others then rest
        else (first :: others) :: rest))
  ∧ is_header_cell (str "Name") = true
  ∧ extract_from_tables
      (tables_only [[ [str "Name"; str "City"]; [str "Alice Johnson"; str "Paris"] ]])
    = [ {[ "name" := str "Name" ]}; {[ "name" := str "Alice Johnson" ]} ].
Proof.
  split_and!.
  - intros first others rest. unfold extract_table.
    rewrite start_idx_header_row. by destruct (existsb is_header_cell others).
  - reflexivity.
  - vm_compute. reflexivity.
Qed.

Section Mailto.

Lemma replace_absent old new s :
  Str.contains old s = false → Str.replace_from old new 0 s = s.
Proof.
  induction s as [|c s IH]; [done|]. intros H.
  cbn [Str.contains] in H. apply orb_false_iff in H as [H1 H2].
  cbn [Str.replace_from]. rewrite H1. by rewrite IH.
Qed.

(** Removing the prefix of a lower-case mailto reference. *)
Lemma mailto_email_prefix rest :
  Str.contains (str "mailto:") rest = false →
  mailto_email (str "mailto:" ++ rest) = Str.strip (Str.split_head "?" rest).
Proof.
  intros H. unfold mailto_email, Str.replace. do 2 f_equal.
  change (Str.replace_from (str "mailto:") [] 0 (str "mailto:" ++ rest))
    with (Str.replace_from (str "mailto:") [] 0 rest).
  by apply replace_absent.
Qed.

Lemma is_mailto_prefix rest text :
  is_mailto {| a_href := Some (str "mailto:" ++ rest); a_text := text |} = true.
Proof. reflexivity. Qed.

End Mailto.

(** C2 fails as stated: the reference [mailto:a@b.com,c@d.org] yields a
    record although [a@b.com,c@d.org] as a whole does not match the email
    pattern. *)
Lemma mailto_not_full_match :
  let link := {| a_href := Some (str "mailto:a@b.com,c@d.org"); a_text := [] |} in
  is_mailto link = true
  ∧ extract_mailto_links (anchors_only [link])
    = [ {[ "email" := str "a@b.com,c@d.org" ]} ]
  ∧ fullmatch EMAIL_RE (str "a@b.com,c@d.org") = None.
Proof. vm_compute. split_and!; reflexivity. Qed.

(** C2, amended: for an anchor whose href is the lower-case prefix
    [mailto:] followed by a rest without a further [mailto:], the remainder
    is the rest cut at the first question mark and trimmed; a record is
    emitted if and only if the email pattern matches at the start of the
    remainder; its email is the whole remainder, and it has a name exactly
    when the visible text is non-empty and differs from that email.  The
    records of a document are those of its anchors, in document order. *)
Theorem mailto_link_extraction :
  (∀ rest text : pystr,
     Str.contains (str "mailto:") rest = false →
     let link := {| a_href := Some (str "mailto:" ++ rest); a_text := text |} in
     let email := Str.strip (Str.split_head "?" rest) in
     extract_mailto_links (anchors_only [link]) =
     if is_some (match_ EMAIL_RE email)
     then [ if Str.nonempty text && negb (Str.eqb text email)
            then <["name" := text]> {[ "email" := email ]}
            else {[ "email" := email ]} ]
     else [])
  ∧ (∀ soup : Soup,
       extract_mailto_links soup =
       flat_map (λ link, extract_mailto_links (anchors_only [link]))
         (soup_anchors soup)).
Proof.
  split.
  - intros rest text Hrest link email. subst link.
    unfold extract_mailto_links, anchors_only. cbn [soup_anchors List.filter].
    rewrite is_mailto_prefix. cbn [flat_map]. rewrite app_nil_r.
    unfold extract_mailto_link. cbn [a_href a_text default from_option id].
    rewrite (mailto_email_prefix rest Hrest). fold email.
    by destruct (is_some (match_ EMAIL_RE email)).
  - intros soup. unfold extract_mailto_links at 1.
    induction (soup_anchors soup) as [|link links IH]; [done|].
    cbn [List.filter flat_map]. rewrite <-IH.
    unfold extract_mailto_links, anchors_only. cbn [soup_anchors List.filter].
    destruct (is_mailto link); cbn [flat_map]; by rewrite ?app_nil_r.
Qed.

Lemma mailto_link_extraction_witness :
  extract_mailto_links
    (anchors_only [ {| a_href := Some (str "mailto:" ++ str "charlie@sample.io?subject=Hi");
                       a_text := str "Charlie Brown" |} ])
  = [ <["name" := str "Charlie Brown"]> {[ "email" := str "charlie@sample.io" ]} ].
Proof.
  exact (proj1 mailto_link_extraction (str "charlie@sample.io?subject=Hi")
           (str "Charlie Brown") eq_refl).
Defined.

(** C3: the matcher captures names that are not capitalized words: from
    [name: john doe] it captures [john doe], and from
    [Name: John Smith and others] the whole [John Smith and others]. *)
Theorem name_pattern_ignores_case :
  captured_name (str "name: john doe") = Some (str "john doe")
  ∧ captured_name (str "Name: John Smith and others")
    = Some (str "John Smith and others")
  ∧ extract_line (str "name: john doe") = [ {[ "name" := str "john doe" ]} ]
  ∧ captured_name (str "Contact: Bob Singh") = Some (str "Bob Singh").
Proof. vm_compute. split_and!; reflexivity. Qed.

Section Visible.

Lemma nonempty_rev (s : pystr) : Str.nonempty (rev s) = Str.nonempty s.
Proof.
  destruct s as [|c s]; [done|]. simpl. by destruct (rev s).
Qed.

Lemma existsb_rev (f : ascii → bool) (s : pystr) : existsb f (rev s) = existsb f s.
Proof.
  induction s as [|c s IH]; [done|]. simpl.
  rewrite existsb_app, IH. simpl. rewrite orb_false_r. apply orb_comm.
Qed.

Lemma nonempty_lstrip s : Str.nonempty (Str.lstrip s) = existsb visible s.
Proof.
  induction s as [|c s IH]; [done|]. simpl. unfold visible at 1.
  by destruct (Char.isspace c).
Qed.

Lemma visible_lstrip s : existsb visible (Str.lstrip s) = existsb visible s.
Proof.
  induction s as [|c s IH]; [done|]. simpl. unfold visible at 2.
  destruct (Char.isspace c) eqn:Hc; simpl; [done|].
  unfold visible at 1. by rewrite Hc.
Qed.

(** A string is non-empty after trimming exactly when it has a character
    that is not whitespace. *)
Lemma nonempty_strip s : Str.nonempty (Str.strip s) = existsb visible s.
Proof.
  unfold Str.strip, Str.rstrip.
  by rewrite nonempty_rev, nonempty_lstrip, existsb_rev, visible_lstrip.
Qed.

Lemma visible_strip s : existsb visible (Str.strip s) = existsb visible s.
Proof.
  unfold Str.strip, Str.rstrip.
  by rewrite existsb_rev, visible_lstrip, existsb_rev, visible_lstrip.
Qed.

Lemma visible_lower_char c : visible (Char.lower c) = visible c.
Proof. by destruct c as [[] [] [] [] [] [] [] []]. Qed.

Lemma visible_upper_char c : visible (Char.upper c) = visible c.
Proof. by destruct c as [[] [] [] [] [] [] [] []]. Qed.

Lemma visible_lower s : existsb visible (Str.lower s) = existsb visible s.
Proof.
  induction s as [|c s IH]; [done|]. simpl. by rewrite visible_lower_char, IH.
Qed.

Lemma visible_title prev s :
  existsb visible (Str.title_from prev s) = existsb visible s.
Proof.
  revert prev. induction s as [|c s IH]; intros prev; [done|]. simpl.
  destruct (Char.isalpha c), prev; simpl;
    by rewrite ?visible_lower_char, ?visible_upper_char, IH.
Qed.

Lemma visible_join_cons p rest :
  existsb visible (Str.join (str " ") (p :: rest))
  = existsb visible p || existsb visible (Str.join (str " ") rest).
Proof.
  destruct rest as [|q rest]; simpl; [by rewrite orb_false_r|].
  by rewrite existsb_app.
Qed.

Lemma visible_words cur s :
  existsb visible (Str.join (str " ") (Str.words_from cur s))
  = existsb visible (rev cur) || existsb visible s.
Proof.
  revert cur. induction s as [|c s IH]; intros cur.
  { destruct cur; [done|]. cbn [Str.words_from Str.join existsb].
    by rewrite orb_false_r. }
  cbn [Str.words_from existsb]. unfold visible at 3.
  destruct (Char.isspace c) eqn:Hc; cbn [negb orb].
  - destruct cur as [|d cur]; [by rewrite IH|].
    by rewrite visible_join_cons, IH.
  - rewrite IH. cbn [rev]. rewrite existsb_app. cbn [existsb].
    unfold visible at 2. rewrite Hc. cbn [negb orb].
    by rewrite !orb_true_r.
Qed.

Lemma visible_digits s :
  Forall (λ c, Char.isdigit c = true) s → existsb visible s = Str.nonempty s.
Proof.
  intros H. destruct H as [|c s Hc _]; [done|]. simpl.
  unfold visible. by rewrite (isdigit_not_space c Hc).
Qed.

Lemma nonblank_name v :
  nonblank (Some (normalize_name v)) = nonblank (Some v).
Proof.
  unfold nonblank, normalize_name, Str.title, Str.split.
  by rewrite !nonempty_strip, visible_title, visible_words.
Qed.

Lemma nonblank_email v :
  nonblank (Some (normalize_email v)) = nonblank (Some v).
Proof.
  unfold nonblank, normalize_email.
  by rewrite !nonempty_strip, visible_lower, visible_strip.
Qed.

(** A canonical phone number is blank exactly when the phone has no
    digit. *)
Lemma nonblank_phone p :
  nonblank (Some (normalize_phone p)) = Str.nonempty (List.filter Char.isdigit p).
Proof.
  unfold nonblank, normalize_phone.
  rewrite nonempty_strip, canonical_phone_unfold.
  pose proof (filter_digit_all p) as Hd.
  destruct (Str.startswith _ _ && _) eqn:E.
  - apply andb_true_iff in E as [_ ->]. done.
  - by apply visible_digits.
Qed.

Lemma any_key_content (c : record) : any_key (stage1_key c) = has_content c.
Proof.
  unfold any_key, stage1_key, has_content, nonblank. cbn [fst snd].
  assert (Hl : ∀ s, Str.nonempty (Str.lower s) = Str.nonempty s) by (by intros []).
  destruct (c !! "name") as [[|? ?]|], (c !! "email") as [[|? ?]|],
    (c !! "phone") as [[|? ?]|]; cbn [truthy default from_option id];
    unfold truthy;
    repeat match goal with
      | |- context [match ?s with [] => false | _ :: _ => true end] =>
          change (match s with [] => false | _ :: _ => true end) with (Str.nonempty s)
      end; rewrite ?Hl; reflexivity.
Qed.

Lemma has_content_stamp url (c : record) :
  has_content (<["source_url" := url]> c) = has_content c.
Proof. unfold has_content. by rewrite !lookup_insert_ne. Qed.

End Visible.

Section Content.

Lemma elem_of_stage1_dedup url cs r :
  r ∈ stage1_dedup url cs →
  ∃ c, c ∈ cs ∧ has_content c = true ∧ r = <["source_url" := url]> c.
Proof.
  unfold stage1_dedup. rewrite stage1_loop_keep_new, app_nil_l.
  intros (c & -> & Hc)%list_elem_of_fmap.
  pose proof (keep_new_sublist stage1_key ∅
                (List.filter (λ c, any_key (stage1_key c)) cs)) as Hsub.
  eapply elem_of_sublist in Hc; [|exact Hsub].
  apply list_elem_of_In, List.filter_In in Hc as [Hin Hany].
  exists c. split_and!; [by apply list_elem_of_In| |done].
  by rewrite <-any_key_content.
Qed.

Lemma filter_filter_content (cs : list record) :
  List.filter (λ c, any_key (stage1_key c)) (List.filter has_content cs)
  = List.filter (λ c, any_key (stage1_key c)) cs.
Proof.
  induction cs as [|c cs IH]; [done|]. simpl.
  destruct (has_content c) eqn:E; simpl; rewrite any_key_content, E; by rewrite IH.
Qed.

Lemma has_content_normalize (c : record) :
  has_content (normalize_record c)
  = nonblank (c !! "name") || nonblank (c !! "email")
    || match c !! "phone" with
       | Some p => Str.nonempty (List.filter Char.isdigit p)
       | None => false
       end.
Proof.
  unfold has_content. rewrite !normalize_record_lookup.
  cbn [field_normalizer decide].
  change (field_normalizer "name") with (Some normalize_name).
  change (field_normalizer "email") with (Some normalize_email).
  change (field_normalizer "phone") with (Some normalize_phone).
  destruct (c !! "name") as [n|], (c !! "email") as [e|], (c !! "phone") as [p|];
    cbn [fmap option_fmap option_map];
    rewrite ?nonblank_name, ?nonblank_email, ?nonblank_phone; reflexivity.
Qed.

End Content.

(** C4 fails as stated: the page [phone_without_digits] yields a final
    record whose only content field is an empty phone. *)
Lemma blank_record_in_output :
  main_records [(phone_without_digits, str "u")]
  = [ <["source_url" := str "u"]> {[ "phone" := [] ]} ]
  ∧ has_content (<["source_url" := str "u"]> {[ "phone" := [] ]}) = false.
Proof. vm_compute. split; reflexivity. Qed.

(** C4, amended: every record [extract_contacts] returns has a name, email
    or phone that is non-empty after trimming; candidates without one are
    discarded by Stage 1 as if they had not been there; every record of the
    final list is the normalization of a record [extract_contacts]
    returned, and it has a non-empty name, email or phone unless that
    record had neither name nor email and a phone without a digit. *)
Theorem content_invariant :
  (∀ (soup : Soup) (url : pystr) (r : record),
     r ∈ extract_contacts soup url → has_content r = true)
  ∧ (∀ (url : pystr) (cs : list record),
       stage1_dedup url cs = stage1_dedup url (List.filter has_content cs))
  ∧ (∀ (documents : list (Soup * pystr)) (r : record),
       r ∈ main_records documents →
       ∃ (d : Soup * pystr) (c : record),
         d ∈ documents ∧ c ∈ extract_contacts d.1 d.2 ∧ has_content c = true
         ∧ r = normalize_record c
         ∧ (has_content r = true
            ∨ (nonblank (c !! "name") = false ∧ nonblank (c !! "email") = false
               ∧ ∃ p, c !! "phone" = Some p ∧ List.filter Char.isdigit p = []))).
Proof.
  assert (Hstage1 : ∀ (soup : Soup) (url : pystr) (r : record),
             r ∈ extract_contacts soup url → has_content r = true).
  { intros soup url r (c & _ & Hc & ->)%elem_of_stage1_dedup.
    by rewrite has_content_stamp. }
  split_and!; [done| |].
  - intros url cs. unfold stage1_dedup.
    by rewrite !stage1_loop_keep_new, filter_filter_content.
  - intros documents r Hr. unfold main_records in Hr.
    rewrite dedupe_records_keep_new in Hr.
    eapply elem_of_sublist in Hr; [|apply keep_new_sublist].
    unfold collect_records in Hr.
    apply list_elem_of_In, in_flat_map in Hr as (d & Hd & Hr).
    apply list_elem_of_In, list_elem_of_fmap in Hr as (c & -> & Hc).
    exists d, c. pose proof (Hstage1 _ _ _ Hc) as Hcontent.
    split_and!; [by apply list_elem_of_In|done..|].
    rewrite has_content_normalize. unfold has_content in Hcontent.
    destruct (nonblank (c !! "name")); [by left|].
    destruct (nonblank (c !! "email")); [by left|].
    destruct (c !! "phone") as [p|]; [|done].
    destruct (List.filter Char.isdigit p) eqn:E; [|by left].
    right. split_and!; [done..|]. by exists p.
Qed.

Lemma content_invariant_witness :
  has_content (<["source_url" := str "u"]> {[ "phone" := str "N/A" ]}) = true
  ∧ ∃ (d : Soup * pystr) (c : record),
      d ∈ [(phone_without_digits, str "u")]
      ∧ c ∈ extract_contacts d.1 d.2 ∧ has_content c = true
      ∧ <["source_url" := str "u"]> {[ "phone" := [] ]} = normalize_record c
      ∧ (has_content (<["source_url" := str "u"]> {[ "phone" := [] ]}) = true
         ∨ (nonblank (c !! "name") = false ∧ nonblank (c !! "email") = false
            ∧ ∃ p, c !! "phone" = Some p ∧ List.filter Char.isdigit p = [])).
Proof.
  split.
  - apply (proj1 content_invariant phone_without_digits (str "u")).
    vm_compute. constructor.
  - apply (proj2 (proj2 content_invariant) [(phone_without_digits, str "u")]).
    vm_compute. constructor.
Defined.

(** ** The matcher never runs out of fuel *)

Section Fuel.

Lemma flat_map_ext_elem {A B} (f g : A → list B) (l : list A) :
  (∀ x, x ∈ l → f x = g x) → flat_map f l = flat_map g l.
Proof.
  induction l as [|a l IH]; intros H; [done|]. simpl.
  rewrite (H a) by left. rewrite IH; [done|].
  intros x Hx. apply H. by right.
Qed.

(** Every iteration moves on, so [n - pos st + 1] turns are enough when
    the body stays within [n]. *)
Lemma repeat_loop_fuel (body : mstate → list mstate) (n : nat) :
  (∀ st st', pos st ≤ n → st' ∈ body st → pos st' ≤ n) →
  ∀ fuel fuel' lo hi st,
    pos st ≤ n → n - pos st < fuel → n - pos st < fuel' →
    repeat_loop body fuel lo hi st = repeat_loop body fuel' lo hi st.
Proof.
  intros Hbody fuel.
  induction fuel as [|fuel IH]; intros fuel' lo hi st Hst Hf Hf'; [lia|].
  destruct fuel' as [|fuel']; [lia|]. cbn [repeat_loop]. f_equal.
  assert (Hstep :
    flat_map (λ st', if pos st <? pos st'
                     then repeat_loop body fuel (pred lo) (pred <$> hi) st' else [])
      (body st)
    = flat_map (λ st', if pos st <? pos st'
                       then repeat_loop body fuel' (pred lo) (pred <$> hi) st' else [])
        (body st)).
  { apply flat_map_ext_elem. intros st' Hst'.
    destruct (pos st <? pos st') eqn:E; [|done].
    apply Nat.ltb_lt in E. pose proof (Hbody _ _ Hst Hst').
    apply IH; lia. }
  destruct hi as [[|h]|]; [done|exact Hstep|exact Hstep].
Qed.

Lemma repeat_loop_bounded (body : mstate → list mstate) (n : nat) :
  (∀ st st', pos st ≤ n → st' ∈ body st → pos st' ≤ n) →
  ∀ fuel lo hi st st',
    pos st ≤ n → st' ∈ repeat_loop body fuel lo hi st → pos st' ≤ n.
Proof.
  intros Hbody fuel.
  induction fuel as [|fuel IH]; intros lo hi st st' Hst Hin.
  { by apply elem_of_nil in Hin. }
  cbn [repeat_loop] in Hin. apply elem_of_app in Hin as [Hin|Hin].
  - assert (Hin' : st' ∈ flat_map
              (λ st'', if pos st <? pos st''
                       then repeat_loop body fuel (pred lo) (pred <$> hi) st''
                       else []) (body st)).
    { destruct hi as [[|h]|]; [by apply elem_of_nil in Hin|done..]. }
    apply list_elem_of_In, in_flat_map in Hin' as (st1 & H1 & H2).
    destruct (pos st <? pos st1); [|done].
    apply list_elem_of_In in H1, H2.
    eapply IH; [|exact H2]. by eapply Hbody.
  - destruct (lo =? 0); [|by apply elem_of_nil in Hin].
    apply list_elem_of_singleton in Hin. by subst.
Qed.

(** A match never reaches beyond the end of the string. *)
Lemma run_bounded ic s r :
  ∀ st st', pos st ≤ length s → st' ∈ run ic s r st → pos st' ≤ length s.
Proof.
  induction r as [|a|items| |r1 IH1 r2 IH2|r1 IH1 r2 IH2|lo hi r IH|r IH];
    intros st st' Hst Hin; cbn [run] in Hin.
  - apply list_elem_of_singleton in Hin. by subst.
  - destruct (s !! pos st) eqn:E; [|by apply elem_of_nil in Hin].
    destruct (lit_matches ic a a0); [|by apply elem_of_nil in Hin].
    apply list_elem_of_singleton in Hin. subst. simpl.
    apply lookup_lt_Some in E. lia.
  - destruct (s !! pos st) eqn:E; [|by apply elem_of_nil in Hin].
    destruct (existsb _ items); [|by apply elem_of_nil in Hin].
    apply list_elem_of_singleton in Hin. subst. simpl.
    apply lookup_lt_Some in E. lia.
  - destruct (xorb _ _); [|by apply elem_of_nil in Hin].
    apply list_elem_of_singleton in Hin. by subst.
  - apply list_elem_of_In, in_flat_map in Hin as (st1 & H1 & H2).
    apply list_elem_of_In in H1, H2.
    eapply IH2; [|exact H2]. by eapply IH1.
  - apply elem_of_app in Hin as [Hin|Hin]; [by eapply IH1|by eapply IH2].
  - eapply repeat_loop_bounded; [|exact Hst|exact Hin]. exact IH.
  - apply list_elem_of_fmap in Hin as (st1 & -> & H1). simpl. by eapply IH.
Qed.

End Fuel.

(** The fuel [run] gives a repetition is never used up: more fuel yields
    the same matches in the same order. *)
Lemma run_repeat_fuel ic s lo hi r st extra :
  pos st ≤ length s →
  repeat_loop (run ic s r) (S (length s) + extra) lo hi st
  = run ic s (Repeat lo hi r) st.
Proof.
  intros Hst. cbn [run].
  apply (repeat_loop_fuel (run ic s r) (length s)); [|done|lia..].
  apply run_bounded.
Qed.

(** ** Words, joining and title case *)

Section Words.


Lemma good_word_rev w : good_word (rev w) = good_word w.
Proof.
  unfold good_word. rewrite nonempty_rev. f_equal.
  induction w as [|c w IH]; [done|]. cbn [rev forallb].
  rewrite forallb_app, IH. cbn [forallb]. rewrite andb_true_r. apply andb_comm.
Qed.

Lemma words_from_good cur s :
  forallb visible cur = true → Forall (λ w, good_word w = true) (Str.words_from cur s).
Proof.
  revert cur. induction s as [|c s IH]; intros cur Hcur.
  { destruct cur as [|d cur]; [constructor|]. constructor; [|constructor].
    rewrite good_word_rev. unfold good_word. by rewrite Hcur. }
  cbn [Str.words_from]. destruct (Char.isspace c) eqn:Hc.
  - destruct cur as [|d cur]; [by apply IH|].
    constructor; [|by apply IH].
    rewrite good_word_rev. unfold good_word. by rewrite Hcur.
  - apply IH. cbn [forallb]. unfold visible at 1. by rewrite Hc.
Qed.

(** The words of a string contain no whitespace and are not empty. *)
Lemma split_good s : Forall (λ w, good_word w = true) (Str.split s).
Proof. by apply words_from_good. Qed.


Lemma title_app_space p w s :
  Str.title_from p (w ++ " "%char :: s)
  = Str.title_from p w ++ " "%char :: Str.title_from false s.
Proof.
  revert p. induction w as [|c w IH]; intros p; [done|].
  cbn [app Str.title_from]. destruct (Char.isalpha c); by rewrite IH.
Qed.

(** Title-casing a joined list of words title-cases every word. *)
Lemma title_join ws :
  Str.title (Str.join (str " ") ws) = Str.join (str " ") (Str.title <$> ws).
Proof.
  unfold Str.title. induction ws as [|w ws IH]; [done|].
  destruct ws as [|w' ws]; [done|].
  change (Str.join (str " ") (w :: w' :: ws))
    with (w ++ " "%char :: Str.join (str " ") (w' :: ws)).
  rewrite title_app_space, IH. reflexivity.
Qed.



Lemma lower_lower c : Char.lower (Char.lower c) = Char.lower c.
Proof. by destruct c as [[] [] [] [] [] [] [] []]. Qed.



Lemma title_from_nonempty p w : Str.nonempty (Str.title_from p w) = Str.nonempty w.
Proof. destruct w as [|c w]; [done|]. cbn [Str.title_from]. by destruct (Char.isalpha c). Qed.

Lemma title_from_visible p w :
  forallb visible (Str.title_from p w) = forallb visible w.
Proof.
  revert p. induction w as [|c w IH]; intros p; [done|].
  cbn [Str.title_from]. destruct (Char.isalpha c), p; cbn [forallb];
    by rewrite ?visible_lower_char, ?visible_upper_char, IH.
Qed.

Lemma title_good w : good_word (Str.title w) = good_word w.
Proof.
  unfold good_word, Str.title. by rewrite title_from_nonempty, title_from_visible.
Qed.

Lemma title_words_good ws :
  Forall (λ w, good_word w = true) ws →
  Forall (λ w, good_word w = true) (Str.title <$> ws).
Proof.
  intros H. apply Forall_fmap. eapply Forall_impl; [exact H|].
  intros w Hw. simpl. by rewrite title_good.
Qed.

(** [normalize_name] title-cases the words of the name and joins them with
    single spaces. *)
Lemma normalize_name_words x :
  normalize_name x = Str.join (str " ") (Str.title <$> Str.split x).
Proof. unfold normalize_name. apply title_join. Qed.


End Words.

(** ** Trimming twice, trimming and case *)

Section Trim.

Lemma lstrip_idemp s : Str.lstrip (Str.lstrip s) = Str.lstrip s.
Proof.
  induction s as [|c s IH]; [done|]. cbn [Str.lstrip].
  destruct (Char.isspace c) eqn:E; [done|]. cbn [Str.lstrip]. by rewrite E.
Qed.

Lemma rstrip_idemp s : Str.rstrip (Str.rstrip s) = Str.rstrip s.
Proof. unfold Str.rstrip. by rewrite rev_involutive, lstrip_idemp. Qed.

Lemma lstrip_snoc_visible l c :
  Char.isspace c = false → Str.lstrip (l ++ [c]) = Str.lstrip l ++ [c].
Proof.
  intros Hc. induction l as [|d l IH]; cbn [app Str.lstrip].
  - by rewrite Hc.
  - by destruct (Char.isspace d).
Qed.

Lemma rstrip_cons_visible c t :
  Char.isspace c = false → Str.rstrip (c :: t) = c :: Str.rstrip t.
Proof.
  intros Hc. unfold Str.rstrip. cbn [rev].
  rewrite lstrip_snoc_visible by done. rewrite rev_app_distr. reflexivity.
Qed.

Lemma lstrip_cases s :
  Str.lstrip s = [] ∨ ∃ c t, Str.lstrip s = c :: t ∧ Char.isspace c = false.
Proof.
  induction s as [|c s IH]; [by left|]. cbn [Str.lstrip].
  destruct (Char.isspace c) eqn:E; [done|]. right. by exists c, s.
Qed.

(** Trimming a trimmed string changes nothing. *)
Lemma strip_idemp s : Str.strip (Str.strip s) = Str.strip s.
Proof.
  unfold Str.strip at 2 3.
  destruct (lstrip_cases s) as [->|(c & t & -> & Hc)]; [done|].
  rewrite rstrip_cons_visible by done. unfold Str.strip.
  rewrite lstrip_head by done.
  by rewrite rstrip_cons_visible, rstrip_idemp.
Qed.

Lemma isspace_lower c : Char.isspace (Char.lower c) = Char.isspace c.
Proof. by destruct c as [[] [] [] [] [] [] [] []]. Qed.

Lemma lstrip_lower s : Str.lstrip (Str.lower s) = Str.lower (Str.lstrip s).
Proof.
  unfold Str.lower. induction s as [|c s IH]; [done|].
  cbn [map Str.lstrip]. rewrite isspace_lower.
  by destruct (Char.isspace c).
Qed.

(** Trimming and lower-casing commute. *)
Lemma strip_lower s : Str.strip (Str.lower s) = Str.lower (Str.strip s).
Proof.
  unfold Str.strip, Str.rstrip. rewrite lstrip_lower.
  unfold Str.lower at 1. rewrite <-map_rev.
  change (map Char.lower (rev (Str.lstrip s))) with (Str.lower (rev (Str.lstrip s))).
  rewrite lstrip_lower. unfold Str.lower. by rewrite map_rev.
Qed.

Lemma lower_idemp s : Str.lower (Str.lower s) = Str.lower s.
Proof.
  unfold Str.lower. rewrite map_map. apply map_ext. intros c. apply lower_lower.
Qed.


Lemma normalize_email_trimmed v : Str.strip (normalize_email v) = normalize_email v.
Proof. unfold normalize_email. by rewrite strip_lower, strip_idemp. Qed.

Lemma join_good_last w ws :
  Forall (λ w, good_word w = true) (w :: ws) →
  ∃ s c, Str.join (str " ") (w :: ws) = s ++ [c] ∧ Char.isspace c = false.
Proof.
  revert w. induction ws as [|w' ws IH]; intros w Hall.
  - inversion Hall as [|? ? Hw _]; subst. cbn [Str.join].
    unfold good_word in Hw. apply andb_true_iff in Hw as [Hne Hvis].
    destruct (exists_last (l := w)) as (s & c & ->); [by destruct w|].
    exists s, c. split; [done|].
    rewrite forallb_app in Hvis. apply andb_true_iff in Hvis as [_ Hc].
    cbn [forallb] in Hc. rewrite andb_true_r in Hc.
    unfold visible in Hc. by apply negb_true_iff in Hc.
  - inversion Hall as [|? ? _ Hrest]; subst.
    destruct (IH w' Hrest) as (s & c & E & Hc).
    change (Str.join (str " ") (w :: w' :: ws))
      with (w ++ " "%char :: Str.join (str " ") (w' :: ws)).
    rewrite E. exists (w ++ " "%char :: s), c. split; [|done].
    by rewrite <-app_assoc.
Qed.

Lemma strip_join_good ws :
  Forall (λ w, good_word w = true) ws →
  Str.strip (Str.join (str " ") ws) = Str.join (str " ") ws.
Proof.
  intros Hall. destruct ws as [|w ws]; [done|].
  destruct (join_good_last w ws Hall) as (s & c & E & Hc).
  assert (Hhead : ∃ d t, Str.join (str " ") (w :: ws) = d :: t ∧ Char.isspace d = false).
  { inversion Hall as [|? ? Hw _]; subst.
    unfold good_word in Hw. apply andb_true_iff in Hw as [Hne Hvis].
    destruct w as [|d w]; [done|]. cbn [forallb] in Hvis.
    apply andb_true_iff in Hvis as [Hd _]. unfold visible in Hd.
    apply negb_true_iff in Hd.
    destruct ws as [|w' ws]; [by exists d, w|].
    exists d, (w ++ " "%char :: Str.join (str " ") (w' :: ws)). by split. }
  destruct Hhead as (d & t & E' & Hd).
  unfold Str.strip. rewrite E', lstrip_head by done.
  rewrite <-E', E. by apply rstrip_last.
Qed.

Lemma normalize_name_trimmed x : Str.strip (normalize_name x) = normalize_name x.
Proof.
  rewrite normalize_name_words. apply strip_join_good, title_words_good, split_good.
Qed.

Lemma canonical_phone_shape x :
  ∃ d, Forall (λ c, Char.isdigit c = true) d
       ∧ (canonical_phone x = d ∨ (d ≠ [] ∧ canonical_phone x = str "+" ++ d)).
Proof.
  exists (List.filter Char.isdigit x). split; [apply filter_digit_all|].
  rewrite canonical_phone_unfold.
  destruct (Str.startswith _ _ && _) eqn:E; [|by left].
  right. split; [|done]. apply andb_true_iff in E as [_ E].
  by destruct (List.filter Char.isdigit x).
Qed.

Lemma canonical_phone_fixed x : canonical_phone (canonical_phone x) = canonical_phone x.
Proof.
  destruct (canonical_phone_shape x) as (d & Hd & [->|[Hne ->]]).
  - by apply canonical_phone_digits.
  - by apply canonical_phone_plus_digits.
Qed.

Lemma canonical_phone_trimmed x : Str.strip (canonical_phone x) = canonical_phone x.
Proof.
  destruct (canonical_phone_shape x) as (d & Hd & [->|[Hne ->]]).
  - by apply strip_no_space, digits_no_space.
  - apply strip_no_space. constructor; [done|]. by apply digits_no_space.
Qed.

End Trim.

(** ** Normalizing a record *)

Section Normalize.


Lemma field_normalizer_trimmed k f v :
  field_normalizer k = Some f → Str.strip (f v) = f v.
Proof.
  unfold field_normalizer. repeat case_decide; intros; simplify_eq.
  - apply normalize_name_trimmed.
  - apply normalize_email_trimmed.
  - apply canonical_phone_trimmed.
  - apply strip_idemp.
Qed.

End Normalize.



(** X3: every field of a normalized record is free of leading and trailing
    whitespace, so a normalized field is blank only when it is empty. *)
Theorem normalized_fields_trimmed (r : record) (k : string) (v : pystr) :
  normalize_record r !! k = Some v →
  Str.strip v = v ∧ nonblank (Some v) = Str.nonempty v.
Proof.
  rewrite normalize_record_lookup.
  destruct (field_normalizer k) as [f|] eqn:Hf; [|done].
  destruct (r !! k) as [u|]; [|done]. cbn [fmap option_fmap option_map].
  intros [= <-]. unfold nonblank.
  by rewrite (field_normalizer_trimmed k f u Hf).
Qed.

Lemma normalized_fields_trimmed_witness :
  Str.strip (str "Bob Singh") = str "Bob Singh"
  ∧ nonblank (Some (str "Bob Singh")) = Str.nonempty (str "Bob Singh").
Proof.
  apply (normalized_fields_trimmed {[ "name" := str "  bob   SINGH " ]} "name").
  vm_compute. reflexivity.
Defined.

(** ** More on the two deduplications *)

Section Counting.
Context {A K : Type} `{Countable K} (key : A → K).

Lemma keep_new_length seen (l : list A) :
  length (keep_new key seen l) = size (list_to_set (key <$> l) ∖ seen : gset K).
Proof.
  revert seen. induction l as [|x l IH]; intros seen.
  { cbn. replace (∅ ∖ seen : gset K) with (∅ : gset K) by set_solver.
    by rewrite size_empty. }
  cbn [keep_new fmap list_fmap list_to_set]. case_decide as Hin.
  - rewrite IH. f_equal. set_solver.
  - cbn [length]. rewrite IH.
    replace (({[key x]} ∪ list_to_set (key <$> l)) ∖ seen : gset K)
      with ({[key x]} ∪ (list_to_set (key <$> l) ∖ ({[key x]} ∪ seen)) : gset K).
    + assert (Hd : ({[key x]} : gset K)
                     ## list_to_set (key <$> l) ∖ ({[key x]} ∪ seen)) by set_solver.
      pose proof (size_union (C:=gset K) _ _ Hd) as Hs. rewrite Hs.
      pose proof (size_singleton (C:=gset K) (key x)) as H1. by rewrite H1.
    + apply set_eq. intros k. rewrite !elem_of_union, !elem_of_difference,
        !elem_of_union, !elem_of_singleton.
      destruct (decide (k = key x)) as [->|]; [tauto|]. tauto.
Qed.

Lemma keep_new_subset seen (l : list A) x : x ∈ keep_new key seen l → x ∈ l.
Proof. intros Hx. eapply elem_of_sublist; [exact Hx|apply keep_new_sublist]. Qed.

End Counting.

Section Pipeline.

Lemma stage1_key_stamp url (c : record) :
  stage1_key (<["source_url" := url]> c) = stage1_key c.
Proof. unfold stage1_key. by rewrite !lookup_insert_ne. Qed.

Lemma stage1_dedup_keep_new url cs :
  stage1_dedup url cs =
  (λ c : record, <["source_url" := url]> c) <$>
    keep_new stage1_key ∅ (List.filter (λ c, any_key (stage1_key c)) cs).
Proof. unfold stage1_dedup. by rewrite stage1_loop_keep_new. Qed.

Lemma elem_of_main_records documents r :
  r ∈ main_records documents →
  ∃ (d : Soup * pystr) (c : record),
    d ∈ documents ∧ c ∈ extract_contacts d.1 d.2 ∧ r = normalize_record c.
Proof.
  unfold main_records. rewrite dedupe_records_keep_new.
  intros Hr%keep_new_subset. unfold collect_records in Hr.
  apply list_elem_of_In, in_flat_map in Hr as (d & Hd & Hr).
  apply list_elem_of_In, list_elem_of_fmap in Hr as (c & -> & Hc).
  exists d, c. split_and!; [by apply list_elem_of_In|done..].
Qed.

Lemma dedupe_key_normalized (c : record) :
  dedupe_key (normalize_record c)
  = (get_or_empty (normalize_record c) "email",
     get_or_empty (normalize_record c) "phone").
Proof.
  unfold dedupe_key, get_or_empty. rewrite !normalize_record_lookup.
  change (field_normalizer "email") with (Some normalize_email).
  change (field_normalizer "phone") with (Some normalize_phone).
  f_equal.
  - destruct (c !! "email") as [e|]; [|done]. cbn.
    unfold normalize_email. by rewrite lower_idemp.
  - destruct (c !! "phone") as [p|]; [|done]. cbn.
    apply canonical_phone_fixed.
Qed.

End Pipeline.

(** X4: the deduplicated list has one record per distinct key of the
    input, so it is never longer than the input. *)
Theorem dedupe_records_length (rs : list record) :
  length (dedupe_records rs) = size (list_to_set (dedupe_key <$> rs) : gset (pystr * pystr))
  ∧ length (dedupe_records rs) ≤ length rs.
Proof.
  rewrite dedupe_records_keep_new. split.
  - rewrite keep_new_length. f_equal. set_solver.
  - apply sublist_length, keep_new_sublist.
Qed.

(** X5: for a normalized record the Stage-2 key is the pair of its email
    and phone fields as they stand, the empty string for a missing field. *)
Theorem dedupe_key_of_normalized (c : record) :
  dedupe_key (normalize_record c)
  = (get_or_empty (normalize_record c) "email",
     get_or_empty (normalize_record c) "phone")
  ∧ dedupe_key (normalize_record c)
    = (default [] (normalize_email <$> c !! "email"),
       default [] (canonical_phone <$> c !! "phone")).
Proof.
  split; [apply dedupe_key_normalized|].
  rewrite dedupe_key_normalized. unfold get_or_empty.
  by rewrite !normalize_record_lookup.
Qed.

(** X6: every record [extract_contacts] returns is a candidate of one of
    the extractors with the source URL written over its [source_url] field,
    and no two returned records have the same Stage-1 key. *)
Theorem extract_contacts_stamped (soup : Soup) (url : pystr) :
  (∀ r : record,
     r ∈ extract_contacts soup url →
     r !! "source_url" = Some url
     ∧ ∃ c, c ∈ extract_structured soup ++ extract_candidates_via_text soup
            ∧ r = <["source_url" := url]> c)
  ∧ NoDup (stage1_key <$> extract_contacts soup url).
Proof.
  unfold extract_contacts. cbn zeta. rewrite stage1_dedup_keep_new. split.
  - intros r (c & -> & Hc)%list_elem_of_fmap. split; [by rewrite lookup_insert_eq|].
    exists c. split; [|done].
    apply keep_new_subset, list_elem_of_In, List.filter_In in Hc as [Hc _].
    by apply list_elem_of_In.
  - rewrite <-list_fmap_compose.
    erewrite list_fmap_ext; [apply keep_new_NoDup|].
    intros i c _. apply stage1_key_stamp.
Qed.

Lemma extract_contacts_stamped_witness :
  (<["source_url" := str "u"]> {[ "phone" := str "N/A" ]} : record) !! "source_url"
    = Some (str "u")
  ∧ ∃ c, c ∈ extract_structured phone_without_digits
             ++ extract_candidates_via_text phone_without_digits
         ∧ (<["source_url" := str "u"]> {[ "phone" := str "N/A" ]} : record)
           = <["source_url" := str "u"]> c.
Proof.
  apply (proj1 (extract_contacts_stamped phone_without_digits (str "u"))).
  vm_compute. constructor.
Defined.

(** X7: records of documents processed earlier are never removed or moved
    by documents processed later: the final list for [docs1 ++ docs2] is
    the final list for [docs1] followed by records of [docs2] whose keys
    are new. *)
Theorem main_records_app (docs1 docs2 : list (Soup * pystr)) :
  ∃ more : list record,
    main_records (docs1 ++ docs2) = main_records docs1 ++ more
    ∧ more `sublist_of` collect_records docs2
    ∧ ∀ r, r ∈ more → dedupe_key r ∉ dedupe_key <$> collect_records docs1.
Proof.
  exists (keep_new dedupe_key (∅ ∪ list_to_set (dedupe_key <$> collect_records docs1))
            (collect_records docs2)).
  split_and!.
  - unfold main_records, collect_records.
    rewrite flat_map_app, !dedupe_records_keep_new. apply keep_new_app.
  - apply keep_new_sublist.
  - intros r Hr Hin. apply keep_new_fresh in Hr. apply Hr.
    apply elem_of_union_r. by apply elem_of_list_to_set.
Qed.

(** X8: every record of the final list has a [source_url], the trimmed
    final URL of one of the documents, and no field other than name, email,
    phone and source_url. *)
Theorem main_records_fields (documents : list (Soup * pystr)) (r : record) :
  r ∈ main_records documents →
  (∃ d, d ∈ documents ∧ r !! "source_url" = Some (Str.strip d.2))
  ∧ dom r ⊆ record_fields.
Proof.
  intros (d & c & Hd & Hc & ->)%elem_of_main_records. split.
  - exists d. split; [done|].
    unfold extract_contacts in Hc. cbn zeta in Hc.
    rewrite stage1_dedup_keep_new in Hc.
    apply list_elem_of_fmap in Hc as (c0 & -> & _).
    rewrite normalize_record_lookup.
    change (field_normalizer "source_url") with (Some Str.strip).
    by rewrite lookup_insert_eq.
  - intros k [v Hk]%elem_of_dom. rewrite normalize_record_lookup in Hk.
    unfold field_normalizer, record_fields in *.
    repeat case_decide; subst; try done; set_solver.
Qed.

Lemma main_records_fields_witness :
  (∃ d, d ∈ [(phone_without_digits, str " u ")]
        ∧ (<["source_url" := str "u"]> {[ "phone" := [] ]} : record) !! "source_url"
          = Some (Str.strip d.2))
  ∧ dom (<["source_url" := str "u"]> {[ "phone" := [] ]} : record) ⊆ record_fields.
Proof.
  apply (main_records_fields [(phone_without_digits, str " u ")]).
  vm_compute. constructor.
Defined.

(** ** The matcher finds what the pattern matches *)

Section Soundness.
Context (ic : bool) (s : pystr).

Lemma repeat_loop_sound (body : mstate → list mstate) (R : nat → nat → Prop) :
  (∀ st st', st' ∈ body st → R (pos st) (pos st')) →
  ∀ fuel lo hi st st',
    st' ∈ repeat_loop body fuel lo hi st → iter R lo hi (pos st) (pos st').
Proof.
  intros Hbody fuel.
  induction fuel as [|fuel IH]; intros lo hi st st' Hin.
  { by apply elem_of_nil in Hin. }
  cbn [repeat_loop] in Hin. apply elem_of_app in Hin as [Hin|Hin].
  - assert (hi ≠ Some 0 ∧ st' ∈ flat_map
              (λ st'', if pos st <? pos st''
                       then repeat_loop body fuel (pred lo) (pred <$> hi) st''
                       else []) (body st)) as [Hhi Hin'].
    { destruct hi as [[|h]|]; [by apply elem_of_nil in Hin|done..]. }
    apply list_elem_of_In, in_flat_map in Hin' as (st1 & H1 & H2).
    destruct (pos st <? pos st1) eqn:E; [|done].
    apply Nat.ltb_lt in E. apply list_elem_of_In in H1, H2.
    eapply iter_step; [done|by apply Hbody|done|by apply IH].
  - destruct (lo =? 0) eqn:E; [|by apply elem_of_nil in Hin].
    apply Nat.eqb_eq in E. apply list_elem_of_singleton in Hin. subst.
    constructor.
Qed.

(** Every match the matcher lists is a match of the pattern. *)
Lemma run_sound r :
  ∀ st st', st' ∈ run ic s r st → spans ic s r (pos st) (pos st').
Proof.
  induction r as [|a|items| |r1 IH1 r2 IH2|r1 IH1 r2 IH2|lo hi r IH|r IH];
    intros st st' Hin; cbn [run] in Hin; cbn [spans].
  - apply list_elem_of_singleton in Hin. by subst.
  - destruct (s !! pos st) as [c|] eqn:E; [|by apply elem_of_nil in Hin].
    destruct (lit_matches ic a c) eqn:Hm; [|by apply elem_of_nil in Hin].
    apply list_elem_of_singleton in Hin. subst. by exists c.
  - destruct (s !! pos st) as [c|] eqn:E; [|by apply elem_of_nil in Hin].
    destruct (existsb _ items) eqn:Hm; [|by apply elem_of_nil in Hin].
    apply list_elem_of_singleton in Hin. subst. by exists c.
  - destruct (xorb _ _) eqn:E; [|by apply elem_of_nil in Hin].
    apply list_elem_of_singleton in Hin. by subst.
  - apply list_elem_of_In, in_flat_map in Hin as (st1 & H1 & H2).
    apply list_elem_of_In in H1, H2. exists (pos st1). split; [by apply IH1|by apply IH2].
  - apply elem_of_app in Hin as [Hin|Hin]; [left; by apply IH1|right; by apply IH2].
  - eapply repeat_loop_sound; [|exact Hin]. exact IH.
  - apply list_elem_of_fmap in Hin as (st1 & -> & H1). simpl. by apply IH.
Qed.

Lemma iter_le (R : nat → nat → Prop) lo hi i j : iter R lo hi i j → i ≤ j.
Proof. induction 1; lia. Qed.

Lemma spans_le r : ∀ i j, spans ic s r i j → i ≤ j.
Proof.
  induction r as [|a|items| |r1 IH1 r2 IH2|r1 IH1 r2 IH2|lo hi r IH|r IH];
    intros i j; cbn [spans].
  - lia.
  - intros (c & _ & _ & ->). lia.
  - intros (c & _ & _ & ->). lia.
  - intros [-> _]. lia.
  - intros (k & H1%IH1 & H2%IH2). lia.
  - intros [?%IH1|?%IH2]; done.
  - apply iter_le.
  - apply IH.
Qed.

Lemma spans_bounded r : ∀ i j, i ≤ length s → spans ic s r i j → j ≤ length s.
Proof.
  induction r as [|a|items| |r1 IH1 r2 IH2|r1 IH1 r2 IH2|lo hi r IH|r IH];
    intros i j Hi; cbn [spans].
  - lia.
  - intros (c & Hc%lookup_lt_Some & _ & ->). lia.
  - intros (c & Hc%lookup_lt_Some & _ & ->). lia.
  - intros [-> _]. lia.
  - intros (k & H1 & H2). eapply IH2; [|exact H2]. by eapply IH1.
  - intros [?|?]; [by eapply IH1|by eapply IH2].
  - intros Hit. induction Hit as [|lo hi i k j _ HR _ _ IHit]; [done|].
    apply IHit. by eapply IH.
  - by apply IH.
Qed.

(** The characters a repetition of a character class passes over. *)
Lemma iter_class items lo hi i j :
  iter (spans ic s (Class items)) lo hi i j →
  lo ≤ j - i ∧ i ≤ j
  ∧ (∀ h, hi = Some h → j - i ≤ h)
  ∧ ∀ k, i ≤ k < j →
      ∃ c, s !! k = Some c ∧ existsb (λ it, item_matches ic it c) items = true.
Proof.
  induction 1 as [hi i|lo hi i k j Hhi (c & Hc & Hm & ->) _ _ IH].
  { split_and!; [lia..| |]; intros; lia. }
  destruct IH as (Hlo & Hle & Hhi' & Hall). split_and!; [lia..| |].
  - intros h ->. destruct h as [|h]; [done|].
    specialize (Hhi' h eq_refl). lia.
  - intros k [Hk1 Hk2]. destruct (decide (k = i)) as [->|]; [by exists c|].
    apply Hall. lia.
Qed.

End Soundness.

Section Slices.

Lemma slice_app (s : pystr) i k j :
  i ≤ k → k ≤ j → slice s i j = slice s i k ++ slice s k j.
Proof.
  intros Hik Hkj. unfold slice.
  replace (drop k s) with (drop (k - i) (drop i s))
    by (rewrite drop_drop; f_equal; lia).
  rewrite take_take_drop. f_equal. lia.
Qed.

Lemma slice_length (s : pystr) i j :
  i ≤ j → j ≤ length s → length (slice s i j) = j - i.
Proof. intros Hij Hj. unfold slice. rewrite length_take, length_drop. lia. Qed.

Lemma slice_Forall (P : ascii → Prop) (s : pystr) i j :
  (∀ k, i ≤ k < j → ∃ c, s !! k = Some c ∧ P c) → Forall P (slice s i j).
Proof.
  intros H. apply Forall_lookup_2. intros k c Hk. unfold slice in Hk.
  apply lookup_take_Some in Hk as [Hk Hlt]. rewrite lookup_drop in Hk.
  destruct (H (i + k)) as (c' & Hc' & HP); [lia|].
  rewrite Hk in Hc'. by simplify_eq.
Qed.

Lemma slice_one (s : pystr) i c : s !! i = Some c → slice s i (S i) = [c].
Proof.
  intros Hc. unfold slice. replace (S i - i) with 1 by lia.
  destruct (drop i s) as [|d t] eqn:E.
  - apply (f_equal (λ l, l !! 0)) in E. rewrite lookup_drop, Nat.add_0_r in E.
    cbn in E. congruence.
  - apply (f_equal (λ l, l !! 0)) in E. rewrite lookup_drop, Nat.add_0_r in E.
    cbn in E. rewrite Hc in E. by simplify_eq.
Qed.

Lemma slice_empty (s : pystr) i : slice s i i = [].
Proof. unfold slice. by rewrite Nat.sub_diag. Qed.

End Slices.

Section Search.

Lemma match_at_Some p s i m :
  match_at p s i = Some m →
  m_string m = s ∧ m_start m = i
  ∧ m_state m ∈ run (p_ignorecase p) s (p_regex p) {| pos := i; grp := None |}.
Proof.
  unfold match_at.
  destruct (run _ s _ _) as [|st l] eqn:E; [done|]. cbn.
  intros [= <-]. cbn. split_and!; [done..|]. by left.
Qed.

Lemma search_from_Some p s i n m :
  search_from p s i n = Some m →
  ∃ k, i ≤ k < i + n ∧ match_at p s k = Some m.
Proof.
  revert i. induction n as [|n IH]; intros i; [done|]. cbn [search_from].
  destruct (match_at p s i) as [m'|] eqn:E.
  - intros [= <-]. exists i. split; [lia|done].
  - intros (k & Hk & Hm)%IH. exists k. split; [lia|done].
Qed.

(** What [search] returns is a match of the pattern inside the string. *)
Lemma search_Some p s m :
  search p s = Some m →
  m_string m = s ∧ m_start m ≤ pos (m_state m) ∧ pos (m_state m) ≤ length s
  ∧ m_state m ∈ run (p_ignorecase p) s (p_regex p)
                  {| pos := m_start m; grp := None |}
  ∧ spans (p_ignorecase p) s (p_regex p) (m_start m) (pos (m_state m)).
Proof.
  unfold search. intros (k & Hk & Hm)%search_from_Some.
  apply match_at_Some in Hm as (Hs & Hst & Hin). subst k.
  pose proof (run_sound _ _ _ _ _ Hin) as Hsp. cbn [pos] in Hsp.
  split_and!; [done| | |done|done].
  - by eapply spans_le.
  - eapply spans_bounded; [|exact Hsp]. lia.
Qed.

End Search.

(** ** What the three patterns match *)

Section PatternChars.
Context (ic : bool) (s : pystr).

Lemma spans_chars r :
  ∀ i j, spans ic s r i j →
  ∀ k, i ≤ k < j → ∃ c, s !! k = Some c ∧ consumes ic r c = true.
Proof.
  induction r as [|a|items| |r1 IH1 r2 IH2|r1 IH1 r2 IH2|lo hi r IH|r IH];
    intros i j; cbn [spans consumes].
  - intros ->. lia.
  - intros (c & Hc & Hm & ->) k Hk. replace k with i by lia. by exists c.
  - intros (c & Hc & Hm & ->) k Hk. replace k with i by lia. by exists c.
  - intros [-> _]. lia.
  - intros (m & H1 & H2) k Hk.
    pose proof (spans_le _ _ _ _ _ H1). pose proof (spans_le _ _ _ _ _ H2).
    destruct (decide (k < m)).
    + destruct (IH1 _ _ H1 k) as (c & ? & Hc); [lia|]. exists c. by rewrite Hc.
    + destruct (IH2 _ _ H2 k) as (c & ? & Hc); [lia|]. exists c.
      rewrite Hc. by rewrite orb_true_r.
  - intros [H1|H1] k Hk.
    + destruct (IH1 _ _ H1 k) as (c & ? & Hc); [lia|]. exists c. by rewrite Hc.
    + destruct (IH2 _ _ H1 k) as (c & ? & Hc); [lia|]. exists c.
      rewrite Hc. by rewrite orb_true_r.
  - intros Hit. induction Hit as [|lo hi i m j _ HR _ Hit IHit]; [intros; lia|].
    intros k Hk. destruct (decide (k < m)).
    + apply (IH _ _ HR). lia.
    + apply IHit. lia.
  - apply IH.
Qed.

End PatternChars.

Section PatternFacts.

Lemma consumes_phone c :
  consumes true (p_regex PHONE_RE) c = true → phone_char c = true.
Proof. destruct c as [[] [] [] [] [] [] [] []]; vm_compute; done. Qed.

Lemma digit_class c :
  existsb (λ it, item_matches true it c) [Digit] = true → Char.isdigit c = true.
Proof. cbn. by rewrite orb_false_r. Qed.

Lemma iter_digits s lo hi i j :
  j ≤ length s →
  iter (spans true s (Class [Digit])) lo hi i j →
  lo ≤ length (slice s i j) ∧ i ≤ j
  ∧ Forall (λ c, Char.isdigit c = true) (slice s i j).
Proof.
  intros Hj (Hlo & Hle & _ & Hall)%iter_class. split_and!; [|done|].
  - rewrite slice_length by done. done.
  - apply slice_Forall. intros k Hk. destruct (Hall k Hk) as (c & ? & Hc).
    exists c. split; [done|]. by apply digit_class.
Qed.

Lemma filter_digit_length_app (a b : pystr) :
  length (List.filter Char.isdigit (a ++ b))
  = length (List.filter Char.isdigit a) + length (List.filter Char.isdigit b).
Proof. by rewrite List.filter_app, length_app. Qed.

(** A phone match holds at least six digits. *)
Lemma phone_spans_digits s i j :
  j ≤ length s → spans true s (p_regex PHONE_RE) i j →
  6 ≤ length (List.filter Char.isdigit (slice s i j)).
Proof.
  intros Hj Hsp.
  cbn [p_regex PHONE_RE seq foldr spans] in Hsp.
  destruct Hsp as (k1 & H1 & k2 & H2 & k3 & H3 & k4 & H4 & k5 & H5 & k6 & H6 & ->).
  apply iter_le in H1, H2, H4, H6.
  pose proof (iter_le _ _ _ _ _ H3). pose proof (iter_le _ _ _ _ _ H5).
  apply iter_digits in H3 as (L3 & _ & D3); [|lia].
  apply iter_digits in H5 as (L5 & _ & D5); [|lia].
  rewrite (slice_app s i k2 k6) by lia.
  rewrite (slice_app s k2 k3 k6) by lia.
  rewrite (slice_app s k3 k4 k6) by lia.
  rewrite (slice_app s k4 k5 k6) by lia.
  rewrite !filter_digit_length_app.
  rewrite (filter_digit_id _ D3), (filter_digit_id _ D5). lia.
Qed.

Lemma canonical_phone_length x :
  length (List.filter Char.isdigit x) ≤ length (canonical_phone x).
Proof.
  rewrite canonical_phone_unfold.
  destruct (Str.startswith _ _ && _); [|done]. cbn. lia.
Qed.

Lemma phone_search_facts s m :
  search PHONE_RE s = Some m →
  6 ≤ length (List.filter Char.isdigit (group0 m))
  ∧ Forall (λ c, phone_char c = true) (group0 m).
Proof.
  intros (Hs & Hle & Hlen & _ & Hsp)%search_Some. unfold group0. rewrite Hs.
  split; [by apply phone_spans_digits|].
  apply slice_Forall. intros k Hk.
  destruct (spans_chars _ _ _ _ _ Hsp k Hk) as (c & Hc & Hcons).
  exists c. split; [done|]. by apply consumes_phone.
Qed.

End PatternFacts.

(** X9: whatever the phone pattern finds in a text has at least six digits
    and consists of digits, whitespace, dots, hyphens, plus signs and
    parentheses only; its canonical form therefore has at least six
    characters and is never empty. *)
Theorem phone_match_has_six_digits (s : pystr) (m : match_obj) :
  search PHONE_RE s = Some m →
  6 ≤ length (List.filter Char.isdigit (group0 m))
  ∧ Forall (λ c, phone_char c = true) (group0 m)
  ∧ 6 ≤ length (canonical_phone (group0 m)).
Proof.
  intros [Hd Hc]%phone_search_facts. split_and!; [done..|].
  pose proof (canonical_phone_length (group0 m)). lia.
Qed.

Lemma phone_match_has_six_digits_witness :
  let m := {| m_string := str "call 555-1234 now"; m_start := 5;
              m_state := {| pos := 13; grp := None |} |} in
  6 ≤ length (List.filter Char.isdigit (group0 m))
  ∧ Forall (λ c, phone_char c = true) (group0 m)
  ∧ 6 ≤ length (canonical_phone (group0 m)).
Proof.
  apply (phone_match_has_six_digits (str "call 555-1234 now")).
  vm_compute. reflexivity.
Defined.

Section EmailFacts.

Lemma local_class c :
  existsb (λ it, item_matches true it c)
    (letters_digits ++ [Single "."; Single "_"; Single "%"; Single "+"; Single "-"]%char)
  = true → local_char c = true.
Proof. destruct c as [[] [] [] [] [] [] [] []]; vm_compute; done. Qed.

Lemma domain_class c :
  existsb (λ it, item_matches true it c)
    (letters_digits ++ [Single "."; Single "-"]%char) = true →
  domain_char c = true.
Proof. destruct c as [[] [] [] [] [] [] [] []]; vm_compute; done. Qed.

Lemma tld_class c :
  existsb (λ it, item_matches true it c)
    [Range "A" "Z"; Single "|"; Range "a" "z"]%char = true →
  tld_char c = true.
Proof. destruct c as [[] [] [] [] [] [] [] []]; vm_compute; done. Qed.

Lemma lit_at c : lit_matches true "@" c = true → c = "@"%char.
Proof. destruct c as [[] [] [] [] [] [] [] []]; vm_compute; done. Qed.

Lemma lit_dot c : lit_matches true "." c = true → c = "."%char.
Proof. destruct c as [[] [] [] [] [] [] [] []]; vm_compute; done. Qed.

Lemma iter_class_slice (P : ascii → bool) s items lo hi i j :
  (∀ c, existsb (λ it, item_matches true it c) items = true → P c = true) →
  j ≤ length s →
  iter (spans true s (Class items)) lo hi i j →
  lo ≤ length (slice s i j) ∧ i ≤ j ∧ Forall (λ c, P c = true) (slice s i j).
Proof.
  intros HP Hj (Hlo & Hle & _ & Hall)%iter_class. split_and!; [|done|].
  - by rewrite slice_length.
  - apply slice_Forall. intros k Hk. destruct (Hall k Hk) as (c & ? & Hc).
    exists c. split; [done|]. by apply HP.
Qed.

(** An email match is a local part, an at sign, a domain, a dot and a last
    segment of at least two characters. *)
Lemma email_spans_shape s i j :
  j ≤ length s → spans true s (p_regex EMAIL_RE) i j →
  ∃ loc dom tld : pystr,
    slice s i j = loc ++ "@"%char :: dom ++ "."%char :: tld
    ∧ 1 ≤ length loc ∧ Forall (λ c, local_char c = true) loc
    ∧ 1 ≤ length dom ∧ Forall (λ c, domain_char c = true) dom
    ∧ 2 ≤ length tld ∧ Forall (λ c, tld_char c = true) tld.
Proof.
  intros Hj Hsp.
  cbn [p_regex EMAIL_RE seq foldr spans] in Hsp.
  destruct Hsp as (k0 & [-> _] & k1 & H1 & k2 & (c & Hc & Hm & ->) & k3 & H3
                   & k4 & (c' & Hc' & Hm' & ->) & k5 & H5 & k6 & [-> _] & ->).
  apply lit_at in Hm. apply lit_dot in Hm'. subst c c'.
  pose proof (iter_le _ _ _ _ _ H1). pose proof (iter_le _ _ _ _ _ H3).
  pose proof (iter_le _ _ _ _ _ H5).
  apply (iter_class_slice local_char) in H1 as (L1 & _ & F1); [|apply local_class|lia].
  apply (iter_class_slice domain_char) in H3 as (L3 & _ & F3); [|apply domain_class|lia].
  apply (iter_class_slice tld_char) in H5 as (L5 & _ & F5); [|apply tld_class|lia].
  exists (slice s i k1), (slice s (S k1) k3), (slice s (S k3) k5).
  split_and!; [|done..].
  rewrite (slice_app s i k1 k5) by lia.
  rewrite (slice_app s k1 (S k1) k5) by lia.
  rewrite (slice_app s (S k1) k3 k5) by lia.
  rewrite (slice_app s k3 (S k3) k5) by lia.
  by rewrite (slice_one s k1 "@"), (slice_one s k3 ".").
Qed.

Lemma email_search_shape s m :
  search EMAIL_RE s = Some m →
  ∃ loc dom tld : pystr,
    group0 m = loc ++ "@"%char :: dom ++ "."%char :: tld
    ∧ 1 ≤ length loc ∧ Forall (λ c, local_char c = true) loc
    ∧ 1 ≤ length dom ∧ Forall (λ c, domain_char c = true) dom
    ∧ 2 ≤ length tld ∧ Forall (λ c, tld_char c = true) tld.
Proof.
  intros (Hs & Hle & Hlen & _ & Hsp)%search_Some. unfold group0. rewrite Hs.
  by apply email_spans_shape.
Qed.

End EmailFacts.

(** X10: whatever the email pattern finds in a text is a non-empty local
    part of letters, digits and [._%+-], an at sign, a non-empty domain of
    letters, digits, dots and hyphens, a dot, and a last segment of at
    least two characters that are letters or vertical bars. *)
Theorem email_match_shape (s : pystr) (m : match_obj) :
  search EMAIL_RE s = Some m →
  ∃ loc dom tld : pystr,
    group0 m = loc ++ str "@" ++ dom ++ str "." ++ tld
    ∧ 1 ≤ length loc ∧ Forall (λ c, local_char c = true) loc
    ∧ 1 ≤ length dom ∧ Forall (λ c, domain_char c = true) dom
    ∧ 2 ≤ length tld ∧ Forall (λ c, tld_char c = true) tld.
Proof. apply email_search_shape. Qed.

Lemma email_match_shape_witness :
  let m := {| m_string := str "mail bob@x.org!"; m_start := 5;
              m_state := {| pos := 14; grp := None |} |} in
  ∃ loc dom tld : pystr,
    group0 m = loc ++ str "@" ++ dom ++ str "." ++ tld
    ∧ 1 ≤ length loc ∧ Forall (λ c, local_char c = true) loc
    ∧ 1 ≤ length dom ∧ Forall (λ c, domain_char c = true) dom
    ∧ 2 ≤ length tld ∧ Forall (λ c, tld_char c = true) tld.
Proof.
  apply (email_match_shape (str "mail bob@x.org!")).
  vm_compute. reflexivity.
Defined.

Section NameFacts.

Lemma run_seq_elem ic s r1 r2 st st' :
  st' ∈ run ic s (Seq r1 r2) st ↔ ∃ st1, st1 ∈ run ic s r1 st ∧ st' ∈ run ic s r2 st1.
Proof.
  cbn [run]. rewrite list_elem_of_In, in_flat_map.
  split; intros (st1 & H1 & H2); exists st1; by rewrite ?list_elem_of_In in *.
Qed.

(** A match of the name pattern records, as group 1, a span its group
    matches, ending where the match ends. *)
Lemma name_run_group s st st' :
  st' ∈ run true s (p_regex NAME_PATTERN) st →
  ∃ a, grp st' = Some (a, pos st') ∧ spans true s name_group a (pos st').
Proof.
  change (p_regex NAME_PATTERN) with
    (Seq (Alt (lits "name") (Alt (lits "contact") (lits "person")))
       (Seq (plus (Class [Space; Single ":"; Single "="; Single "-"]%char))
          (Seq (Group name_group) Eps))).
  intros (st1 & _ & (st2 & _ & (st3 & H3 & H4)%run_seq_elem)%run_seq_elem)%run_seq_elem.
  cbn [run] in H3, H4. apply list_elem_of_singleton in H4. subst st'.
  apply list_elem_of_fmap in H3 as (stg & -> & Hg). cbn [pos grp].
  exists (pos st2). split; [done|]. by apply run_sound.
Qed.

Lemma upper_class c :
  existsb (λ it, item_matches true it c) [Range "A" "Z"]%char = true →
  Char.isalpha c = true.
Proof. destruct c as [[] [] [] [] [] [] [] []]; vm_compute; done. Qed.

Lemma lower_class c :
  existsb (λ it, item_matches true it c) [Range "a" "z"]%char = true →
  Char.isalpha c = true.
Proof. destruct c as [[] [] [] [] [] [] [] []]; vm_compute; done. Qed.

Lemma space_class c :
  existsb (λ it, item_matches true it c) [Space] = true → Char.isspace c = true.
Proof. cbn. by rewrite orb_false_r. Qed.

Lemma capitalized_word_spans s a k :
  k ≤ length s → spans true s capitalized_word a k →
  a ≤ k ∧ name_word (slice s a k).
Proof.
  intros Hk Hsp. cbn [capitalized_word seq foldr spans] in Hsp.
  destruct Hsp as (k1 & (c & Hc & Hm & ->) & k2 & H2 & ->).
  apply upper_class in Hm. pose proof (iter_le _ _ _ _ _ H2).
  apply (iter_class_slice Char.isalpha) in H2 as (L2 & _ & F2);
    [|apply lower_class|lia].
  split; [lia|].
  rewrite (slice_app s a (S a) k2) by lia. rewrite (slice_one s a c Hc).
  split; [cbn; lia|]. by constructor.
Qed.

Lemma name_tail_spans s lo hi k b :
  hi = None → b ≤ length s →
  iter (spans true s (seq [plus (Class [Space]); capitalized_word])) lo hi k b →
  ∃ more : list (pystr * pystr),
    slice s k b = concat ((λ p, p.1 ++ p.2) <$> more)
    ∧ lo ≤ length more
    ∧ Forall (λ p, blank_run p.1 ∧ name_word p.2) more.
Proof.
  intros Hhi Hb Hit.
  induction Hit as [hi k|lo hi k m b _ HR Hlt Hit IH].
  { exists []. by rewrite slice_empty. }
  subst hi. destruct (IH eq_refl Hb) as (more & Hmore & Hlen & Hall).
  pose proof (iter_le _ _ _ _ _ Hit) as Hmb.
  cbn [seq foldr spans] in HR. destruct HR as (k1 & H1 & k2 & H2 & ->).
  fold capitalized_word in H2.
  apply capitalized_word_spans in H2 as [Hk1 Hw]; [|lia].
  pose proof (iter_le _ _ _ _ _ H1).
  apply (iter_class_slice Char.isspace) in H1 as (L1 & _ & F1);
    [|apply space_class|lia].
  exists ((slice s k k1, slice s k1 k2) :: more). split_and!.
  - rewrite (slice_app s k k2 b) by lia. rewrite (slice_app s k k1 k2) by lia.
    cbn. by rewrite Hmore.
  - cbn. lia.
  - constructor; [|done]. by split.
Qed.

Lemma name_group_shape s a b :
  b ≤ length s → spans true s name_group a b → name_shape (slice s a b).
Proof.
  intros Hb Hsp. cbn [name_group seq foldr spans] in Hsp.
  destruct Hsp as (k1 & H1 & k2 & H2 & ->).
  fold capitalized_word in H1.
  pose proof (iter_le _ _ _ _ _ H2).
  apply capitalized_word_spans in H1 as [Hk1 Hw]; [|lia].
  apply name_tail_spans in H2 as (more & Hmore & Hlen & Hall); [|done..].
  exists (slice s a k1), more. split_and!; [|done..].
  rewrite (slice_app s a k1 k2) by lia. by rewrite Hmore.
Qed.

Lemma isalpha_not_space c : Char.isalpha c = true → Char.isspace c = false.
Proof. destruct c as [[] [] [] [] [] [] [] []]; vm_compute; done. Qed.

(** A name of that shape begins and ends with a letter, so trimming it
    changes nothing. *)
Lemma name_shape_trimmed name : name_shape name → Str.strip name = name.
Proof.
  intros (first & more & -> & Hlen & [Hf1 Hf2] & Hall).
  destruct first as [|c first]; [cbn in Hf1; lia|].
  inversion Hf2 as [|? ? Hc _]; subst.
  unfold Str.strip. cbn [app]. rewrite lstrip_head by (by apply isalpha_not_space).
  destruct (exists_last (l := more)) as (more' & p & ->).
  { destruct more; [cbn in Hlen; lia|done]. }
  apply Forall_app in Hall as [_ Hp]. inversion Hp as [|? ? [_ [Hw1 Hw2]] _]; subst.
  destruct (exists_last (l := p.2)) as (w & d & Ew).
  { destruct (p.2); [cbn in Hw1; lia|done]. }
  rewrite Ew in Hw2. apply Forall_app in Hw2 as [_ Hd].
  inversion Hd as [|? ? Hd' _]; subst.
  rewrite fmap_app, concat_app. cbn [fmap list_fmap concat]. rewrite Ew, app_nil_r.
  replace (c :: first ++ concat ((λ p0 : pystr * pystr, p0.1 ++ p0.2) <$> more')
             ++ p.1 ++ w ++ [d])
    with ((c :: first ++ concat ((λ p0 : pystr * pystr, p0.1 ++ p0.2) <$> more')
             ++ p.1 ++ w) ++ [d]).
  - apply rstrip_last. by apply isalpha_not_space.
  - cbn [app]. f_equal. by rewrite <-!app_assoc.
Qed.

Lemma captured_name_facts line name :
  captured_name line = Some name →
  ∃ m, search NAME_PATTERN line = Some m ∧ group1 m = Some name ∧ name_shape name.
Proof.
  unfold captured_name.
  destruct (search NAME_PATTERN line) as [m|] eqn:Hm; [|done].
  cbn [fmap option_fmap option_map]. intros [= <-].
  pose proof Hm as (Hs & Hle & Hlen & Hin & _)%search_Some.
  apply name_run_group in Hin as (a & Hgrp & Hsp).
  assert (Hshape : name_shape (slice line a (pos (m_state m)))).
  { by apply name_group_shape. }
  exists m. unfold group1. rewrite Hgrp, Hs.
  cbn [fmap option_fmap option_map default from_option id fst snd].
  rewrite (name_shape_trimmed _ Hshape). done.
Qed.

End NameFacts.



(** ** The text scan *)

Section TextScan.

Lemma split_on_app sep cur a b :
  Str.split_on sep cur (a ++ sep :: b)
  = Str.split_on sep cur a ++ Str.split_on sep [] b.
Proof.
  revert cur. induction a as [|c a IH]; intros cur; cbn [app Str.split_on].
  - unfold Char.eqb. by rewrite Ascii.eqb_refl.
  - destruct (Char.eqb c sep); by rewrite IH.
Qed.

Lemma extract_line_length line : length (extract_line line) ≤ 1.
Proof.
  unfold extract_line. destruct (negb _); [cbn; lia|].
  case_decide; cbn; lia.
Qed.

Lemma flat_map_length_le {A B} (f : A → list B) (l : list A) :
  (∀ x, length (f x) ≤ 1) → length (flat_map f l) ≤ length l.
Proof.
  intros Hf. induction l as [|x l IH]; [done|]. cbn.
  rewrite length_app. specialize (Hf x). lia.
Qed.

Lemma email_nonblank s m :
  search EMAIL_RE s = Some m → nonblank (Some (group0 m)) = true.
Proof.
  intros (loc & dom & tld & -> & _)%email_search_shape.
  unfold nonblank. rewrite nonempty_strip, existsb_app. cbn [existsb].
  change (visible "@") with true. by rewrite orb_true_r.
Qed.

Lemma digits_visible (g : pystr) :
  1 ≤ length (List.filter Char.isdigit g) → existsb visible g = true.
Proof.
  induction g as [|c g IH]; cbn [List.filter length existsb]; [lia|].
  destruct (Char.isdigit c) eqn:E.
  - intros _. unfold visible. by rewrite (isdigit_not_space c E).
  - intros H. rewrite IH by done. by rewrite orb_true_r.
Qed.

Lemma phone_nonblank s m :
  search PHONE_RE s = Some m →
  nonblank (Some (group0 m)) = true
  ∧ Str.nonempty (List.filter Char.isdigit (group0 m)) = true.
Proof.
  intros [Hd _]%phone_search_facts. split.
  - unfold nonblank. rewrite nonempty_strip. apply digits_visible. lia.
  - destruct (List.filter Char.isdigit (group0 m)); [cbn in Hd; lia|done].
Qed.

Lemma name_nonblank line name :
  captured_name line = Some name → nonblank (Some name) = true.
Proof.
  intros (m & _ & _ & first & more & -> & _ & [Hf1 Hf2] & _)%captured_name_facts.
  unfold nonblank. rewrite nonempty_strip.
  destruct first as [|c first]; [cbn in Hf1; lia|].
  inversion Hf2 as [|? ? Hc _]; subst. cbn [app existsb].
  unfold visible at 1. by rewrite (isalpha_not_space c Hc).
Qed.

(** The fields a text line contributes. *)
Lemma extract_line_fields line c :
  c ∈ extract_line line →
  c !! "email" = group0 <$> search EMAIL_RE (Str.strip line)
  ∧ c !! "phone" = group0 <$> search PHONE_RE (Str.strip line)
  ∧ c !! "name" = captured_name (Str.strip line)
  ∧ dom c ⊆ ({[ "name"; "email"; "phone" ]} : gset string).
Proof.
  unfold extract_line, captured_name. destruct (negb _); [by intros ?%elem_of_nil|].
  case_decide; [by intros ?%elem_of_nil|].
  intros ->%list_elem_of_singleton.
  destruct (search EMAIL_RE (Str.strip line)) as [me|],
           (search PHONE_RE (Str.strip line)) as [mp|],
           (search NAME_PATTERN (Str.strip line)) as [mn|];
    cbn [fmap option_fmap option_map];
    (split_and!; [by simplify_map_eq..|]);
    rewrite ?dom_insert_L, ?dom_empty_L; set_solver.
Qed.

Lemma extract_line_nonempty line c : c ∈ extract_line line → c ≠ ∅.
Proof.
  unfold extract_line. destruct (negb _); [by intros ?%elem_of_nil|].
  case_decide; [by intros ?%elem_of_nil|]. by intros ->%list_elem_of_singleton.
Qed.

Lemma extract_line_content line c :
  c ∈ extract_line line →
  (∀ k v, c !! k = Some v → nonblank (Some v) = true)
  ∧ has_content c = true ∧ has_content (normalize_record c) = true.
Proof.
  intros Hc. pose proof (extract_line_nonempty _ _ Hc) as Hne.
  apply extract_line_fields in Hc as (He & Hp & Hn & Hdom).
  assert (Hfields : ∀ k v, c !! k = Some v → nonblank (Some v) = true).
  { intros k v Hk.
    assert (k ∈ dom c) as Hkd by (apply elem_of_dom; eauto).
    apply Hdom in Hkd.
    rewrite !elem_of_union, !elem_of_singleton in Hkd.
    destruct Hkd as [[->| ->]| ->].
    - rewrite Hn in Hk. by eapply name_nonblank.
    - rewrite He in Hk.
      destruct (search EMAIL_RE (Str.strip line)) as [m|] eqn:E; [|done].
      cbn in Hk. simplify_eq. by eapply email_nonblank.
    - rewrite Hp in Hk.
      destruct (search PHONE_RE (Str.strip line)) as [m|] eqn:E; [|done].
      cbn in Hk. simplify_eq. by eapply phone_nonblank. }
  split; [done|].
  assert (∃ k v, c !! k = Some v) as (k & v & Hk).
  { destruct (map_choose c Hne) as (k & v & Hk). eauto. }
  assert (k ∈ dom c) as Hkd by (apply elem_of_dom; eauto).
  apply Hdom in Hkd. rewrite !elem_of_union, !elem_of_singleton in Hkd.
  rewrite has_content_normalize. unfold has_content.
  destruct Hkd as [[->| ->]| ->].
  - rewrite Hk, (Hfields _ _ Hk). done.
  - rewrite Hk, (Hfields _ _ Hk). by rewrite !orb_true_r.
  - pose proof (Hfields _ _ Hk) as Hv. rewrite Hk, Hv.
    rewrite Hp in Hk.
    destruct (search PHONE_RE (Str.strip line)) as [m|] eqn:E; [|done].
    cbn in Hk. simplify_eq.
    destruct (phone_nonblank _ _ E) as [_ ->]. by rewrite !orb_true_r.
Qed.

End TextScan.

(** X12: the text scan treats every line on its own: the candidates of two
    texts joined by a newline are the candidates of the first followed by
    those of the second, and a text yields at most one candidate per
    line. *)
Theorem text_lines_independent (soup soup1 soup2 : Soup) :
  (soup_text soup = soup_text soup1 ++ newline :: soup_text soup2 →
   extract_candidates_via_text soup
   = extract_candidates_via_text soup1 ++ extract_candidates_via_text soup2)
  ∧ length (extract_candidates_via_text soup)
    ≤ length (Str.split_lines (soup_text soup)).
Proof.
  unfold extract_candidates_via_text, Str.split_lines. split.
  - intros ->. change (ascii_of_nat 10) with newline.
    by rewrite split_on_app, flat_map_app.
  - apply flat_map_length_le, extract_line_length.
Qed.

Lemma text_lines_independent_witness :
  extract_candidates_via_text
    {| soup_tables := []; soup_anchors := []; soup_elements := [];
       soup_text := text_of_lines ["Contact: Bob Singh"; "call 555-1234"] |}
  = extract_candidates_via_text
      {| soup_tables := []; soup_anchors := []; soup_elements := [];
         soup_text := str "Contact: Bob Singh" |}
    ++ extract_candidates_via_text
         {| soup_tables := []; soup_anchors := []; soup_elements := [];
            soup_text := str "call 555-1234" |}.
Proof.
  apply (proj1 (text_lines_independent _ _ _)). reflexivity.
Defined.

(** X13: every field of a candidate of the text scan is non-blank, and the
    candidate still has a non-empty name, email or phone after
    normalization. *)
Theorem text_candidates_keep_content (soup : Soup) (c : record) :
  c ∈ extract_candidates_via_text soup →
  (∀ k v, c !! k = Some v → nonblank (Some v) = true)
  ∧ has_content c = true
  ∧ has_content (normalize_record c) = true.
Proof.
  unfold extract_candidates_via_text.
  intros (line & _ & Hc)%list_elem_of_In%in_flat_map.
  apply list_elem_of_In in Hc. by eapply extract_line_content.
Qed.

Lemma text_candidates_keep_content_witness :
  (∀ k v, ({[ "phone" := str "555-1234" ]} : record) !! k = Some v →
          nonblank (Some v) = true)
  ∧ has_content {[ "phone" := str "555-1234" ]} = true
  ∧ has_content (normalize_record {[ "phone" := str "555-1234" ]}) = true.
Proof.
  apply (text_candidates_keep_content
           {| soup_tables := []; soup_anchors := []; soup_elements := [];
              soup_text := str "call 555-1234" |}).
  vm_compute. constructor.
Defined.

(** ** The semantic extractor *)

Section Semantic.

Lemma singleton_not_empty (k : string) (v : pystr) : ({[ k := v ]} : record) ≠ ∅.
Proof. apply insert_non_empty. Qed.

Lemma semantic_element_single pattern elem c :
  c ∈ extract_semantic_element pattern elem →
  (∃ m, search EMAIL_RE (e_text elem) = Some m ∧ c = {[ "email" := group0 m ]})
  ∨ (∃ m, search PHONE_RE (e_text elem) = Some m ∧ c = {[ "phone" := group0 m ]})
  ∨ (2 < length (e_text elem) ∧ c = {[ "name" := e_text elem ]}).
Proof.
  unfold extract_semantic_element.
  destruct (Str.contains (str "email") (str pattern) || _).
  { destruct (search EMAIL_RE (e_text elem)) as [m|]; [|by intros ?%elem_of_nil].
    rewrite decide_False by apply singleton_not_empty.
    intros ->%list_elem_of_singleton. left. by exists m. }
  destruct (Str.contains (str "phone") (str pattern) || _ || _).
  { destruct (search PHONE_RE (e_text elem)) as [m|]; [|by intros ?%elem_of_nil].
    rewrite decide_False by apply singleton_not_empty.
    intros ->%list_elem_of_singleton. right. left. by exists m. }
  destruct (Str.contains (str "name") (str pattern) || _);
    [|by intros ?%elem_of_nil].
  destruct (Str.nonempty (e_text elem) && (2 <? length (e_text elem))) eqn:E;
    [|by intros ?%elem_of_nil].
  rewrite decide_False by apply singleton_not_empty.
  intros ->%list_elem_of_singleton. right. right. split; [|done].
  apply andb_true_iff in E as [_ E]. by apply Nat.ltb_lt in E.
Qed.

Lemma elem_of_semantic soup c :
  c ∈ extract_semantic_elements soup →
  ∃ pattern elem, elem ∈ soup_elements soup
                  ∧ c ∈ extract_semantic_element pattern elem.
Proof.
  unfold extract_semantic_elements.
  intros (pattern & _ & Hc)%list_elem_of_In%in_flat_map.
  apply in_flat_map in Hc as (elem & Helem & Hc).
  exists pattern, elem. split; [|by apply list_elem_of_In].
  apply in_app_or in Helem as [Helem|Helem];
    apply List.filter_In in Helem as [Helem _]; by apply list_elem_of_In.
Qed.

End Semantic.

(** X14: every candidate of the semantic extractor has exactly one field,
    taken from the text of one element: an email the email pattern finds
    there, a phone the phone pattern finds there (with at least six
    digits), or the whole text as a name when it is longer than two
    characters. *)
Theorem semantic_candidates_single_field (soup : Soup) (c : record) :
  c ∈ extract_semantic_elements soup →
  ∃ elem, elem ∈ soup_elements soup ∧
    ((∃ m, search EMAIL_RE (e_text elem) = Some m ∧ c = {[ "email" := group0 m ]})
     ∨ (∃ m, search PHONE_RE (e_text elem) = Some m ∧ c = {[ "phone" := group0 m ]}
             ∧ 6 ≤ length (List.filter Char.isdigit (group0 m)))
     ∨ (2 < length (e_text elem) ∧ c = {[ "name" := e_text elem ]})).
Proof.
  intros (pattern & elem & Helem & Hc)%elem_of_semantic.
  exists elem. split; [done|].
  apply semantic_element_single in Hc as [(m & Hm & ->)|[(m & Hm & ->)|[Hl ->]]].
  - left. by exists m.
  - right. left. exists m. split_and!; [done..|].
    by apply phone_search_facts in Hm as [? _].
  - right. right. done.
Qed.

Lemma semantic_candidates_single_field_witness :
  let elem := {| e_class := [str "contact-name"]; e_id := None;
                 e_text := str "Dana Cruz" |} in
  ∃ elem', elem' ∈ [elem] ∧
    ((∃ m, search EMAIL_RE (e_text elem') = Some m
           ∧ ({[ "name" := str "Dana Cruz" ]} : record) = {[ "email" := group0 m ]})
     ∨ (∃ m, search PHONE_RE (e_text elem') = Some m
             ∧ ({[ "name" := str "Dana Cruz" ]} : record) = {[ "phone" := group0 m ]}
             ∧ 6 ≤ length (List.filter Char.isdigit (group0 m)))
     ∨ (2 < length (e_text elem')
        ∧ ({[ "name" := str "Dana Cruz" ]} : record) = {[ "name" := e_text elem' ]})).
Proof.
  intros elem.
  apply (semantic_candidates_single_field
           {| soup_tables := []; soup_anchors := []; soup_elements := [elem];
              soup_text := [] |}).
  vm_compute. constructor.
Defined.

(** ** The rows of a table *)

Section Rows.

Lemma fallback_field_other field p text (contact : record) k :
  k ≠ field → fallback_field field p text contact !! k = contact !! k.
Proof.
  intros Hk. unfold fallback_field.
  destruct (truthy _); [done|]. destruct (search p text); [|done].
  by rewrite lookup_insert_ne.
Qed.

Lemma fallback_field_kept field p text (contact : record) :
  truthy (contact !! field) = true → fallback_field field p text contact = contact.
Proof. intros H. unfold fallback_field. by rewrite H. Qed.

Lemma foldl_fallback_name cells (contact : record) :
  foldl fallback_cell contact cells !! "name" = contact !! "name".
Proof.
  revert contact. induction cells as [|text cells IH]; intros contact; [done|].
  cbn [foldl]. rewrite IH. unfold fallback_cell.
  by rewrite !fallback_field_other.
Qed.

Lemma foldl_fallback_email cells (contact : record) :
  truthy (contact !! "email") = true →
  foldl fallback_cell contact cells !! "email" = contact !! "email".
Proof.
  revert contact. induction cells as [|text cells IH]; intros contact H; [done|].
  cbn [foldl]. unfold fallback_cell at 2.
  rewrite (fallback_field_kept "email") by done.
  rewrite IH; by rewrite fallback_field_other.
Qed.

Lemma foldl_fallback_phone cells (contact : record) :
  truthy (contact !! "phone") = true →
  foldl fallback_cell contact cells !! "phone" = contact !! "phone".
Proof.
  revert contact. induction cells as [|text cells IH]; intros contact H; [done|].
  cbn [foldl]. unfold fallback_cell at 2.
  assert (Hp : truthy (fallback_field "email" EMAIL_RE text contact !! "phone") = true)
    by (by rewrite fallback_field_other).
  rewrite (fallback_field_kept "phone") by done.
  rewrite IH by done. by rewrite fallback_field_other.
Qed.

Lemma set_from_column_lookup field idx cells (contact : record) k :
  set_from_column field idx cells contact !! k =
  if decide (k = field)
  then match idx ≫= (cells !!.) with Some text => Some text | None => contact !! k end
  else contact !! k.
Proof.
  unfold set_from_column. destruct idx as [i|]; cbn.
  - destruct (cells !! i) as [text|]; case_decide; subst; by simplify_map_eq.
  - by case_decide.
Qed.

End Rows.

(** X15: in a record read from a table row the name is the text of the
    mapped name cell or absent (the pattern search never fills it), and a
    mapped email or phone cell with non-empty text is kept as it is: the
    pattern search only fills an email or phone that is missing or
    empty. *)
Theorem table_row_mapped_cells (cols : columns) (cells : list pystr) (c : record) :
  c ∈ extract_row cols cells →
  c !! "name" = cols.1.1 ≫= (cells !!.)
  ∧ (∀ i text, cols.1.2 = Some i → cells !! i = Some text → text ≠ [] →
               c !! "email" = Some text)
  ∧ (∀ i text, cols.2 = Some i → cells !! i = Some text → text ≠ [] →
               c !! "phone" = Some text).
Proof.
  destruct cols as [[name_idx email_idx] phone_idx]. unfold extract_row.
  destruct cells as [|cell cells]; [by intros ?%elem_of_nil|].
  case_decide; [by intros ?%elem_of_nil|].
  intros ->%list_elem_of_singleton. cbn [fst snd]. split_and!.
  - rewrite foldl_fallback_name, !set_from_column_lookup.
    repeat (case_decide; try done).
    rewrite lookup_empty. by destruct (name_idx ≫= _).
  - intros i text -> Hi Hne.
    assert (Hv : set_from_column "phone" phone_idx (cell :: cells)
                   (set_from_column "email" (Some i) (cell :: cells)
                      (set_from_column "name" name_idx (cell :: cells) ∅)) !! "email"
                 = Some text).
    { rewrite !set_from_column_lookup. repeat (case_decide; try done).
      cbn [mbind option_bind]. by rewrite Hi. }
    rewrite foldl_fallback_email; [done|]. rewrite Hv. by destruct text.
  - intros i text -> Hi Hne.
    assert (Hv : set_from_column "phone" (Some i) (cell :: cells)
                   (set_from_column "email" email_idx (cell :: cells)
                      (set_from_column "name" name_idx (cell :: cells) ∅)) !! "phone"
                 = Some text).
    { rewrite !set_from_column_lookup. repeat (case_decide; try done).
      cbn [mbind option_bind]. by rewrite Hi. }
    rewrite foldl_fallback_phone; [done|]. rewrite Hv. by destruct text.
Qed.

Lemma table_row_mapped_cells_witness :
  let cells := [str "Eve Park"; str "see eve@x.org or desk"; str "n/a"] in
  let c : record := {[ "name" := str "Eve Park"; "email" := str "see eve@x.org or desk";
                       "phone" := str "n/a" ]} in
  c !! "name" = Some 0 ≫= (cells !!.)
  ∧ (∀ i text, Some 1 = Some i → cells !! i = Some text → text ≠ [] →
               c !! "email" = Some text)
  ∧ (∀ i text, Some 2 = Some i → cells !! i = Some text → text ≠ [] →
               c !! "phone" = Some text).
Proof.
  intros cells c.
  apply (table_row_mapped_cells (Some 0, Some 1, Some 2) cells c).
  vm_compute. constructor.
Defined.

(** ** Which cell maps a column *)

Section Columns.

Lemma map_columns_snoc hs h :
  map_columns (hs ++ [h]) = header_step (map_columns hs) (length hs, h).
Proof.
  unfold map_columns. rewrite imap_app, foldl_app. cbn [imap foldl].
  by rewrite Nat.add_0_r.
Qed.

Lemma header_step_column acc idx h field :
  column (header_step acc (idx, h)) field
  = if decide (cell_field h = Some field) then Some idx else column acc field.
Proof.
  destruct acc as [[n e] p]. unfold header_step, cell_field, column.
  destruct (Str.contains (str "name") h || _ || _); cbn [fst snd].
  { repeat case_decide; simplify_eq; done. }
  destruct (Str.contains (str "email") h || _); cbn [fst snd].
  { repeat case_decide; simplify_eq; done. }
  destruct (Str.contains (str "phone") h || _ || _); cbn [fst snd];
    repeat case_decide; simplify_eq; done.
Qed.

Lemma column_last_cell headers field i :
  column (map_columns headers) field = Some i ↔
  (∃ h, headers !! i = Some h ∧ cell_field h = Some field)
  ∧ ∀ j h, i < j → headers !! j = Some h → cell_field h ≠ Some field.
Proof.
  revert i. induction headers as [|h hs IH] using rev_ind; intros i.
  { unfold map_columns, column. cbn. split.
    - repeat case_decide; done.
    - by intros [(h & ? & _) _]. }
  rewrite map_columns_snoc, header_step_column. case_decide as Hh.
  - split.
    + intros [= <-]. split.
      * exists h. split; [|done]. by rewrite lookup_app_r, Nat.sub_diag.
      * intros j h' Hj Hl. apply lookup_lt_Some in Hl.
        rewrite length_app in Hl. cbn in Hl. lia.
    + intros [(h' & Hl & _) Hlast]. f_equal.
      pose proof (lookup_lt_Some _ _ _ Hl) as Hlt.
      rewrite length_app in Hlt. cbn in Hlt.
      destruct (decide (i = length hs)) as [->|]; [done|]. exfalso.
      apply (Hlast (length hs) h); [lia| |done].
      by rewrite lookup_app_r, Nat.sub_diag.
  - rewrite IH. split.
    + intros [(h' & Hl & Hf) Hlast]. split.
      * exists h'. split; [|done]. by apply lookup_app_l_Some.
      * intros j h'' Hj Hl'. apply lookup_app_Some in Hl' as [Hl'|[Hge Hl']].
        -- by eapply Hlast.
        -- apply list_lookup_singleton_Some in Hl' as [_ <-]. done.
    + intros [(h' & Hl & Hf) Hlast].
      apply lookup_app_Some in Hl as [Hl|[Hge Hl]].
      * split; [by exists h'|]. intros j h'' Hj Hl'.
        apply (Hlast j h''); [done|]. by apply lookup_app_l_Some.
      * apply list_lookup_singleton_Some in Hl as [_ <-]. done.
Qed.

End Columns.

(** X16: the column mapped to a field is the index of the last first-row
    cell that names this field, where a cell names the first of name, email
    and phone whose keyword it contains; the field has no column when no
    cell names it. *)
Theorem header_last_cell_wins (headers : list pystr) (field : string) :
  (∀ i, column (map_columns headers) field = Some i ↔
        (∃ h, headers !! i = Some h ∧ cell_field h = Some field)
        ∧ ∀ j h, i < j → headers !! j = Some h → cell_field h ≠ Some field)
  ∧ (column (map_columns headers) field = None ↔
     ∀ j h, headers !! j = Some h → cell_field h ≠ Some field).
Proof.
  split; [apply column_last_cell|].
  destruct (column (map_columns headers) field) as [i|] eqn:E.
  - apply column_last_cell in E as [(h & Hl & Hf) _]. split; [done|].
    intros Hnone. exfalso. by apply (Hnone i h).
  - split; [|done]. intros _ j h Hl Hf.
    assert (∃ i, column (map_columns headers) field = Some i) as [i Hi]; [|congruence].
    clear E. revert j h Hl Hf.
    induction headers as [|h' hs IH] using rev_ind; intros j h Hl Hf; [done|].
    rewrite map_columns_snoc, header_step_column. case_decide; [by eexists|].
    apply lookup_app_Some in Hl as [Hl|[_ Hl]]; [by eapply IH|].
    apply list_lookup_singleton_Some in Hl as [_ <-]. done.
Qed.

Example header_two_name_cells :
  map_columns (Str.lower <$> [str "Name"; str "Email"; str "Contact person"; str "E-mail / phone"])
  = (Some 2, Some 3, None).
Proof. vm_compute. reflexivity. Qed.

Lemma header_last_cell_wins_witness :
  (∃ h, (Str.lower <$> [str "Name"; str "Email"; str "Contact person"]) !! 2 = Some h
        ∧ cell_field h = Some "name")
  ∧ ∀ j h, 2 < j →
      (Str.lower <$> [str "Name"; str "Email"; str "Contact person"]) !! j = Some h →
      cell_field h ≠ Some "name".
Proof.
  apply (proj1 (proj1 (header_last_cell_wins
                         (Str.lower <$> [str "Name"; str "Email"; str "Contact person"])
                         "name") 2)).
  vm_compute. reflexivity.
Defined.

(** ** The records of mailto links *)

Section MailtoRecords.

Lemma elem_of_lstrip c s : c ∈ Str.lstrip s → c ∈ s.
Proof.
  induction s as [|d s IH]; [done|]. cbn [Str.lstrip].
  destruct (Char.isspace d); [|done]. intros H. right. by apply IH.
Qed.

Lemma elem_of_rev (c : ascii) (l : pystr) : c ∈ rev l ↔ c ∈ l.
Proof. rewrite !list_elem_of_In. symmetry. apply in_rev. Qed.

Lemma elem_of_strip c s : c ∈ Str.strip s → c ∈ s.
Proof.
  unfold Str.strip, Str.rstrip. rewrite elem_of_rev.
  intros H%elem_of_lstrip. rewrite elem_of_rev in H. by apply elem_of_lstrip.
Qed.

Lemma split_head_no_sep sep s : sep ∉ Str.split_head sep s.
Proof.
  induction s as [|c s IH]; cbn [Str.split_head]; [by intros ?%elem_of_nil|].
  unfold Char.eqb. destruct (Ascii.eqb_spec c sep) as [->|Hne].
  - by intros ?%elem_of_nil.
  - intros [->|H]%elem_of_cons; [done|]. by apply IH.
Qed.

Lemma mailto_email_facts href :
  Str.strip (mailto_email href) = mailto_email href
  ∧ "?"%char ∉ mailto_email href.
Proof.
  unfold mailto_email. split; [apply strip_idemp|].
  intros H%elem_of_strip. by apply split_head_no_sep in H.
Qed.

(** What matches at the start of a string is a prefix of it. *)
Lemma match_prefix p s m :
  match_ p s = Some m →
  s = slice s 0 (pos (m_state m)) ++ drop (pos (m_state m)) s
  ∧ pos (m_state m) ≤ length s
  ∧ spans (p_ignorecase p) s (p_regex p) 0 (pos (m_state m)).
Proof.
  unfold match_. intros (Hs & Hst & Hin)%match_at_Some.
  pose proof (run_sound _ _ _ _ _ Hin) as Hsp. cbn [pos] in Hsp.
  split_and!; [|by eapply spans_bounded; [|exact Hsp]; lia|done].
  unfold slice. rewrite Nat.sub_0_r. cbn [drop]. by rewrite take_drop.
Qed.

Lemma extract_mailto_link_facts link c :
  c ∈ extract_mailto_link link →
  ∃ m, match_ EMAIL_RE (mailto_email (default [] (a_href link))) = Some m
       ∧ c !! "email" = Some (mailto_email (default [] (a_href link)))
       ∧ dom c ⊆ ({[ "email"; "name" ]} : gset string).
Proof.
  unfold extract_mailto_link.
  destruct (match_ EMAIL_RE _) as [m|] eqn:Hm; [|by intros ?%elem_of_nil].
  cbn [is_some]. intros ->%list_elem_of_singleton. exists m.
  destruct (Str.nonempty (a_text link) && _).
  - split_and!; [done|by simplify_map_eq|].
    rewrite dom_insert_L, dom_singleton_L. set_solver.
  - split_and!; [done|by simplify_map_eq|].
    rewrite dom_singleton_L. set_solver.
Qed.

End MailtoRecords.

(** X17: every record of the mailto extractor comes from an anchor whose
    href starts with [mailto:] in any letter case; its email is trimmed,
    contains no question mark and begins with a local part, an at sign, a
    domain, a dot and at least two further characters; it has no fields
    besides email and name. *)
Theorem mailto_records_shape (soup : Soup) (c : record) :
  c ∈ extract_mailto_links soup →
  ∃ (link : Anchor) (email : pystr),
    link ∈ soup_anchors soup ∧ is_mailto link = true
    ∧ c !! "email" = Some email
    ∧ Str.strip email = email ∧ ("?"%char ∉ email)
    ∧ (∃ loc dom tld rest : pystr,
         email = (loc ++ "@"%char :: dom ++ "."%char :: tld) ++ rest
         ∧ 1 ≤ length loc ∧ Forall (λ c, local_char c = true) loc
         ∧ 1 ≤ length dom ∧ Forall (λ c, domain_char c = true) dom
         ∧ 2 ≤ length tld ∧ Forall (λ c, tld_char c = true) tld)
    ∧ dom c ⊆ ({[ "email"; "name" ]} : gset string).
Proof.
  unfold extract_mailto_links.
  intros (link & Hlink & Hc)%list_elem_of_In%in_flat_map.
  apply List.filter_In in Hlink as [Hlink Hm]. apply list_elem_of_In in Hlink, Hc.
  apply extract_mailto_link_facts in Hc as (m & Hmatch & He & Hdom).
  exists link, (mailto_email (default [] (a_href link))).
  destruct (mailto_email_facts (default [] (a_href link))) as [Htrim Hq].
  split_and!; [done..| |done].
  apply match_prefix in Hmatch as (Heq & Hlen & Hsp).
  apply email_spans_shape in Hsp as (loc & dom & tld & Hg & ?); [|done].
  exists loc, dom, tld,
    (drop (pos (m_state m)) (mailto_email (default [] (a_href link)))).
  split; [|done]. by rewrite <-Hg.
Qed.

Lemma mailto_records_shape_witness :
  let link := {| a_href := Some (str "mailto:eve@x.org,bo@y.io?cc=z");
                 a_text := str "Eve" |} in
  let c : record := {[ "email" := str "eve@x.org,bo@y.io"; "name" := str "Eve" ]} in
  ∃ (link' : Anchor) (email : pystr),
    link' ∈ [link] ∧ is_mailto link' = true
    ∧ c !! "email" = Some email
    ∧ Str.strip email = email ∧ ("?"%char ∉ email)
    ∧ (∃ loc dom tld rest : pystr,
         email = (loc ++ "@"%char :: dom ++ "."%char :: tld) ++ rest
         ∧ 1 ≤ length loc ∧ Forall (λ c, local_char c = true) loc
         ∧ 1 ≤ length dom ∧ Forall (λ c, domain_char c = true) dom
         ∧ 2 ≤ length tld ∧ Forall (λ c, tld_char c = true) tld)
    ∧ dom c ⊆ ({[ "email"; "name" ]} : gset string).
Proof.
  intros link c. apply (mailto_records_shape (anchors_only [link]) c).
  vm_compute. constructor.
Defined.

(** ** The matcher misses no match *)

Section Completeness.
Context (ic : bool) (s : pystr).

Lemma repeat_loop_complete (body : mstate → list mstate) (R : nat → nat → Prop) n :
  (∀ st k, pos st ≤ n → R (pos st) k → ∃ st', st' ∈ body st ∧ pos st' = k) →
  (∀ i k, i ≤ n → R i k → k ≤ n) →
  ∀ lo hi i j, iter R lo hi i j →
  ∀ fuel st, pos st = i → i ≤ n → n - i < fuel →
  ∃ st', st' ∈ repeat_loop body fuel lo hi st ∧ pos st' = j.
Proof.
  intros Hbody Hbound lo hi i j Hit.
  induction Hit as [hi i|lo hi i k j Hhi HR Hlt Hit IH];
    intros fuel st Hpos Hi Hfuel; (destruct fuel as [|fuel]; [lia|]);
    cbn [repeat_loop].
  - exists st. split; [|done]. apply elem_of_app. right. by left.
  - subst i. destruct (Hbody st k Hi HR) as (st1 & H1 & Hp1).
    pose proof (Hbound _ _ Hi HR) as Hk.
    destruct (IH fuel st1 Hp1 Hk) as (st' & Hin & Hpos'); [lia|].
    exists st'. split; [|done]. apply elem_of_app. left.
    assert (st' ∈ flat_map
              (λ st'', if pos st <? pos st''
                       then repeat_loop body fuel (pred lo) (pred <$> hi) st''
                       else []) (body st)) as Hgoal.
    { apply list_elem_of_In, in_flat_map. exists st1.
      split; [by apply list_elem_of_In|].
      rewrite Hp1. rewrite (proj2 (Nat.ltb_lt _ _) Hlt). by apply list_elem_of_In. }
    destruct hi as [[|h]|]; done.
Qed.

(** Whatever the pattern matches from a position inside the string is in
    the list of the matcher. *)
Lemma run_complete r :
  ∀ i j st, spans ic s r i j → pos st = i → i ≤ length s →
  ∃ st', st' ∈ run ic s r st ∧ pos st' = j.
Proof.
  induction r as [|a|items| |r1 IH1 r2 IH2|r1 IH1 r2 IH2|lo hi r IH|r IH];
    intros i j st; cbn [spans run].
  - intros -> Hp _. exists st. split; [by left|done].
  - intros (c & Hc & Hm & ->) <- _. rewrite Hc, Hm. eexists. split; [by left|done].
  - intros (c & Hc & Hm & ->) <- _. rewrite Hc, Hm. eexists. split; [by left|done].
  - intros [-> Hx] <- _. rewrite Hx. exists st. split; [by left|done].
  - intros (k & H1 & H2) Hp Hi.
    destruct (IH1 _ _ st H1 Hp Hi) as (st1 & Hin1 & Hp1).
    assert (k ≤ length s) as Hk by (by eapply spans_bounded; [|exact H1]).
    destruct (IH2 _ _ st1 H2 Hp1 Hk) as (st2 & Hin2 & Hp2).
    exists st2. split; [|done]. apply list_elem_of_In, in_flat_map.
    exists st1. by rewrite <-!list_elem_of_In.
  - intros [H1|H1] Hp Hi.
    + destruct (IH1 _ _ st H1 Hp Hi) as (st1 & ? & ?). exists st1.
      split; [|done]. apply elem_of_app. by left.
    + destruct (IH2 _ _ st H1 Hp Hi) as (st1 & ? & ?). exists st1.
      split; [|done]. apply elem_of_app. by right.
  - intros Hit Hp Hi.
    eapply (repeat_loop_complete _ (spans ic s r) (length s)); [| |exact Hit|done|done|lia].
    + intros st0 k Hst0 HR. by eapply IH.
    + intros i0 k Hi0 HR. by eapply spans_bounded; [|exact HR].
  - intros H1 Hp Hi. destruct (IH _ _ st H1 Hp Hi) as (st1 & ? & ?).
    eexists. split; [apply list_elem_of_fmap; by exists st1|done].
Qed.

Lemma iter_class_intro items lo n :
  ∀ i, (∀ k, i ≤ k < i + n →
          ∃ c, s !! k = Some c ∧ existsb (λ it, item_matches ic it c) items = true) →
  lo ≤ n → iter (spans ic s (Class items)) lo None i (i + n).
Proof.
  revert lo. induction n as [|n IH]; intros lo i Hall Hlo.
  { replace lo with 0 by lia. rewrite Nat.add_0_r. constructor. }
  apply (iter_step _ _ _ _ (S i)); [done| |lia|].
  - destruct (Hall i) as (c & Hc & Hm); [lia|]. by exists c.
  - replace (i + S n) with (S i + n) by lia. apply IH; [|lia].
    intros k Hk. apply Hall. lia.
Qed.

End Completeness.

(** ** [is_valid_email] *)

Section ValidEmail.

Lemma valid_local_class c :
  existsb (λ it, item_matches false it c) valid_local_items = local_char c.
Proof. destruct c as [[] [] [] [] [] [] [] []]; vm_compute; done. Qed.

Lemma valid_domain_class c :
  existsb (λ it, item_matches false it c) valid_domain_items = domain_char c.
Proof. destruct c as [[] [] [] [] [] [] [] []]; vm_compute; done. Qed.

Lemma valid_tld_class c :
  existsb (λ it, item_matches false it c) valid_tld_items = Char.isalpha c.
Proof. destruct c as [[] [] [] [] [] [] [] []]; vm_compute; done. Qed.

Lemma lit_exact a c : lit_matches false a c = true ↔ c = a.
Proof.
  unfold lit_matches, Char.eqb. destruct (Ascii.eqb_spec a c); split; congruence.
Qed.

Lemma iter_class_slice' (P : ascii → bool) s items lo hi i j :
  (∀ c, existsb (λ it, item_matches false it c) items = P c) →
  j ≤ length s →
  iter (spans false s (Class items)) lo hi i j →
  lo ≤ length (slice s i j) ∧ i ≤ j ∧ Forall (λ c, P c = true) (slice s i j).
Proof.
  intros HP Hj (Hlo & Hle & _ & Hall)%iter_class. split_and!; [|done|].
  - by rewrite slice_length.
  - apply slice_Forall. intros k Hk. destruct (Hall k Hk) as (c & ? & Hc).
    exists c. split; [done|]. by rewrite <-HP.
Qed.

Lemma valid_spans_shape s j :
  j ≤ length s → spans false s VALID_EMAIL_BODY 0 j → valid_email_shape (slice s 0 j).
Proof.
  intros Hj Hsp.
  cbn [VALID_EMAIL_BODY seq foldr spans] in Hsp.
  destruct Hsp as (k1 & H1 & k2 & (c & Hc & Hm & ->) & k3 & H3
                   & k4 & (c' & Hc' & Hm' & ->) & k5 & H5 & ->).
  apply lit_exact in Hm, Hm'. subst c c'.
  pose proof (iter_le _ _ _ _ _ H1). pose proof (iter_le _ _ _ _ _ H3).
  pose proof (iter_le _ _ _ _ _ H5).
  apply (iter_class_slice' local_char) in H1 as (L1 & _ & F1);
    [|apply valid_local_class|lia].
  apply (iter_class_slice' domain_char) in H3 as (L3 & _ & F3);
    [|apply valid_domain_class|lia].
  apply (iter_class_slice' Char.isalpha) in H5 as (L5 & _ & F5);
    [|apply valid_tld_class|lia].
  exists (slice s 0 k1), (slice s (S k1) k3), (slice s (S k3) k5).
  split_and!; [|done..].
  rewrite (slice_app s 0 k1 k5) by lia.
  rewrite (slice_app s k1 (S k1) k5) by lia.
  rewrite (slice_app s (S k1) k3 k5) by lia.
  rewrite (slice_app s k3 (S k3) k5) by lia.
  by rewrite (slice_one s k1 "@"), (slice_one s k3 ".").
Qed.

Lemma lookup_region (pre mid post : pystr) k :
  length pre ≤ k < length pre + length mid →
  (pre ++ mid ++ post) !! k = mid !! (k - length pre).
Proof.
  intros Hk. rewrite lookup_app_r by lia. apply lookup_app_l. lia.
Qed.

Lemma iter_class_region (P : ascii → bool) items lo (pre mid post : pystr) :
  (∀ c, existsb (λ it, item_matches false it c) items = P c) →
  Forall (λ c, P c = true) mid → lo ≤ length mid →
  iter (spans false (pre ++ mid ++ post) (Class items)) lo None
    (length pre) (length pre + length mid).
Proof.
  intros HP Hmid Hlo. apply iter_class_intro; [|done].
  intros k Hk. rewrite lookup_region by done.
  destruct (lookup_lt_is_Some_2 mid (k - length pre)) as [c Hc]; [lia|].
  exists c. split; [done|]. rewrite HP.
  by eapply (proj1 (Forall_lookup _ _) Hmid).
Qed.

Lemma valid_spans_intro (loc dom tld tail : pystr) :
  1 ≤ length loc → Forall (λ c, local_char c = true) loc →
  1 ≤ length dom → Forall (λ c, domain_char c = true) dom →
  2 ≤ length tld → Forall (λ c, Char.isalpha c = true) tld →
  spans false ((loc ++ "@"%char :: dom ++ "."%char :: tld) ++ tail) VALID_EMAIL_BODY 0
    (length (loc ++ "@"%char :: dom ++ "."%char :: tld)).
Proof.
  intros L1 F1 L2 F2 L3 F3.
  set (s := (loc ++ "@"%char :: dom ++ "."%char :: tld) ++ tail).
  assert (E1 : s = [] ++ loc ++ ("@"%char :: dom ++ "."%char :: tld ++ tail)).
  { unfold s. cbn [app]. rewrite <-app_assoc. cbn [app]. by rewrite <-app_assoc. }
  assert (E2 : s = (loc ++ ["@"%char]) ++ dom ++ ("."%char :: tld ++ tail)).
  { rewrite E1. cbn [app]. by rewrite <-app_assoc. }
  assert (E3 : s = (loc ++ "@"%char :: dom ++ ["."%char]) ++ tld ++ tail).
  { rewrite E1. cbn [app]. rewrite <-!app_assoc. cbn [app].
    by rewrite <-!app_assoc. }
  assert (H1 : iter (spans false s (Class valid_local_items)) 1 None 0 (length loc)).
  { rewrite E1. apply (iter_class_region local_char _ 1 []);
      [apply valid_local_class|done..]. }
  assert (Hat : s !! length loc = Some "@"%char).
  { rewrite E1. cbn [app]. by rewrite lookup_app_r, Nat.sub_diag. }
  assert (H3 : iter (spans false s (Class valid_domain_items)) 1 None
                 (S (length loc)) (S (length loc) + length dom)).
  { pose proof (iter_class_region domain_char valid_domain_items 1
                  (loc ++ ["@"%char]) dom ("."%char :: tld ++ tail)
                  valid_domain_class F2 L2) as H.
    rewrite <-E2 in H. rewrite length_app in H. cbn [length] in H.
    by rewrite Nat.add_1_r in H. }
  assert (Hdot : s !! (S (length loc) + length dom) = Some "."%char).
  { rewrite E2. rewrite lookup_app_r by (rewrite length_app; cbn; lia).
    rewrite length_app. cbn [length].
    replace (S (length loc) + length dom - (length loc + 1)) with (length dom) by lia.
    by rewrite lookup_app_r, Nat.sub_diag. }
  assert (H5 : iter (spans false s (Class valid_tld_items)) 2 None
                 (S (S (length loc) + length dom))
                 (S (S (length loc) + length dom) + length tld)).
  { pose proof (iter_class_region Char.isalpha valid_tld_items 2
                  (loc ++ "@"%char :: dom ++ ["."%char]) tld tail
                  valid_tld_class F3 L3) as H.
    rewrite <-E3 in H. rewrite length_app in H. cbn [length] in H.
    rewrite length_app in H. cbn [length] in H.
    replace (length loc + S (length dom + 1)) with (S (S (length loc) + length dom))
      in H by lia. done. }
  cbn [VALID_EMAIL_BODY seq foldr spans].
  exists (length loc). split; [exact H1|].
  exists (S (length loc)). split; [exists "@"%char; by rewrite lit_exact|].
  exists (S (length loc) + length dom). split; [exact H3|].
  exists (S (S (length loc) + length dom)).
  split; [exists "."%char; by rewrite lit_exact|].
  exists (S (S (length loc) + length dom) + length tld). split; [exact H5|].
  rewrite length_app. cbn [length]. rewrite length_app. cbn [length]. lia.
Qed.

Lemma is_valid_email_sound s :
  is_valid_email s = true →
  valid_email_shape s ∨ ∃ s', s = s' ++ [ascii_of_nat 10] ∧ valid_email_shape s'.
Proof.
  unfold is_valid_email. destruct s as [|c0 s0] eqn:Es; [done|]. rewrite <-Es.
  intros (st & Hin & Hd)%existsb_exists. apply list_elem_of_In in Hin.
  pose proof (run_sound _ _ _ _ _ Hin) as Hsp. cbn [pos] in Hsp.
  assert (Hlen : pos st ≤ length s) by (eapply spans_bounded; [|exact Hsp]; lia).
  pose proof (valid_spans_shape _ _ Hlen Hsp) as Hshape.
  unfold at_dollar in Hd. apply orb_true_iff in Hd as [Hd|Hd].
  - apply Nat.eqb_eq in Hd. left. unfold slice in Hshape.
    rewrite Hd, Nat.sub_0_r in Hshape. cbn [drop] in Hshape.
    by rewrite take_ge in Hshape.
  - apply andb_true_iff in Hd as [Hd Hnl]. apply Nat.eqb_eq in Hd.
    apply bool_decide_eq_true in Hnl. right. exists (slice s 0 (pos st)).
    split; [|done]. unfold slice. rewrite Nat.sub_0_r. cbn [drop].
    rewrite <-(take_drop (pos st) s) at 1. f_equal.
    apply list_eq. intros [|k].
    + by rewrite lookup_drop, Nat.add_0_r.
    + rewrite lookup_drop. cbn. apply lookup_ge_None_2. lia.
Qed.

Lemma is_valid_email_complete s0 tail :
  valid_email_shape s0 → tail = [] ∨ tail = [ascii_of_nat 10] →
  is_valid_email (s0 ++ tail) = true.
Proof.
  intros (loc & dom & tld & -> & L1 & F1 & L2 & F2 & L3 & F3) Htail.
  pose proof (valid_spans_intro loc dom tld tail L1 F1 L2 F2 L3 F3) as Hsp.
  set (s0 := loc ++ "@"%char :: dom ++ "."%char :: tld) in *.
  destruct (run_complete false (s0 ++ tail) VALID_EMAIL_BODY 0 (length s0)
              {| pos := 0; grp := None |} Hsp eq_refl) as (st & Hin & Hpos); [lia|].
  unfold is_valid_email.
  destruct (s0 ++ tail) as [|c0 r] eqn:Es.
  { apply (f_equal (@length ascii)) in Es. rewrite length_app in Es.
    unfold s0 in Es. rewrite length_app in Es. cbn in Es. lia. }
  rewrite <-Es. apply existsb_exists. exists st.
  split; [apply list_elem_of_In; by rewrite Es|].
  rewrite Hpos. unfold at_dollar. rewrite length_app.
  destruct Htail as [->| ->]; cbn [length].
  - by rewrite Nat.add_0_r, Nat.eqb_refl.
  - apply orb_true_iff. right. apply andb_true_iff. split.
    + apply Nat.eqb_eq. lia.
    + apply bool_decide_eq_true. by rewrite lookup_app_r, Nat.sub_diag.
Qed.

End ValidEmail.

(** X18: [is_valid_email] accepts exactly the strings made of a non-empty
    local part of letters, digits and [._%+-], an at sign, a non-empty
    domain of letters, digits, dots and hyphens, a dot and a last segment
    of two or more letters, and those strings followed by one newline. *)
Theorem is_valid_email_spec (s : pystr) :
  is_valid_email s = true ↔
  valid_email_shape s ∨ ∃ s', s = s' ++ [newline] ∧ valid_email_shape s'.
Proof.
  split; [apply is_valid_email_sound|].
  intros [Hs|(s' & -> & Hs)].
  - rewrite <-(app_nil_r s). apply is_valid_email_complete; [done|by left].
  - apply is_valid_email_complete; [done|by right].
Qed.

Lemma is_valid_email_spec_witness :
  valid_email_shape (str "a@b.co" ++ [newline])
  ∨ ∃ s', str "a@b.co" ++ [newline] = s' ++ [newline] ∧ valid_email_shape s'.
Proof.
  apply (proj1 (is_valid_email_spec (str "a@b.co" ++ [newline]))).
  vm_compute. reflexivity.
Defined.

(** ** The rows the writer keeps *)

Section Writer.

Lemma nunique_le (values : list pystr) : nunique_nonempty values ≤ length values.
Proof.
  unfold nunique_nonempty.
  induction values as [|v values IH]; cbn [List.filter length].
  { cbn. by rewrite size_empty. }
  destruct (Str.nonempty v); [|lia]. cbn [list_to_set].
  pose proof (size_union_alt (C:=gset pystr) {[v]}
                (list_to_set (List.filter Str.nonempty values))) as Hu.
  pose proof (size_singleton (C:=gset pystr) v) as H1.
  pose proof (subseteq_size (C:=gset pystr)
                (list_to_set (List.filter Str.nonempty values) ∖ {[v]})
                (list_to_set (List.filter Str.nonempty values))) as Hs.
  rewrite Hu, H1. specialize (Hs ltac:(set_solver)). lia.
Qed.

Lemma filter_length_le {A} (f : A → bool) (l : list A) :
  length (List.filter f l) ≤ length l.
Proof. induction l as [|x l IH]; cbn; [lia|]. destruct (f x); cbn; lia. Qed.




Lemma filter_fmap {A B} (f : A → B) (g : B → bool) (l : list A) :
  List.filter g (f <$> l) = f <$> List.filter (λ x, g (f x)) l.
Proof.
  induction l as [|x l IH]; [done|]. cbn. destruct (g (f x)); cbn; by rewrite IH.
Qed.

End Writer.


Example writer_drops_blank_record :
  contact_rows (main_records [(phone_without_digits, str "u")]) = [].
Proof. vm_compute. reflexivity. Qed.

(** X20: the summary never counts more than there is: the number of rows
    is at most the number of records, and the numbers of distinct non-empty
    emails and phones are at most the number of rows. *)
Theorem summary_bounds (records : list record) :
  let '(total_rows, unique_emails, unique_phones) := summary records in
  total_rows ≤ length records
  ∧ unique_emails ≤ total_rows ∧ unique_phones ≤ total_rows.
Proof.
  unfold summary. split_and!.
  - unfold contact_rows. etransitivity; [apply filter_length_le|].
    by rewrite length_fmap.
  - etransitivity; [apply nunique_le|]. by rewrite length_fmap.
  - etransitivity; [apply nunique_le|]. by rewrite length_fmap.
Qed.

Section NameOnlyRows.

Lemma filter_filter_length {A} (f g : A → bool) (l : list A) :
  length (List.filter f (List.filter g l)) ≤ length (List.filter f l).
Proof.
  induction l as [|x l IH]; [done|]. cbn.
  destruct (g x), (f x) eqn:E; cbn; rewrite ?E; cbn; lia.
Qed.

Lemma no_email_no_phone_key (r : record) :
  no_email_no_phone (to_row r) = true → dedupe_key r = ([], []).
Proof.
  unfold no_email_no_phone, to_row, dedupe_key. cbn [r_email r_phone].
  intros [He Hp]%andb_true_iff.
  destruct (get_or_empty r "email"); [|done].
  by destruct (get_or_empty r "phone").
Qed.

End NameOnlyRows.

(** X21: the contacts sheet of a run has at most one row in which both the
    email and the phone are empty. *)
Theorem sheet_one_row_without_email_and_phone (documents : list (Soup * pystr)) :
  length (List.filter no_email_no_phone (contact_rows (main_records documents))) ≤ 1.
Proof.
  unfold contact_rows. rewrite filter_fmap, filter_fmap, length_fmap.
  etransitivity; [apply filter_filter_length|].
  apply (filter_at_most_one dedupe_key (λ r, no_email_no_phone (to_row r)) ([], [])).
  - apply dedupe_records_NoDup.
  - apply no_email_no_phone_key.
Qed.
